(** * eg-react: navigation-context coordinates, feature placement, row packing

    A shallow embedding of [NavigationContext.ts] (the [NavigationContext]
    class and, after it, the [FeaturePlacer] module) and of
    [IntervalArranger], with the properties of the natural-language
    specification stated and settled over that embedding.

    Conventions.
    - Base (context, genomic, feature-relative) coordinates are integers
      and are modelled by [Z].
    - Draw coordinates are JavaScript numbers; they are modelled by [num],
      exact rationals extended with the two infinities and NaN (rounding is
      not modelled).
    - A JavaScript object reference is modelled by a [handle] carried by
      the value; [Map<Feature, number>] is a [gmap] keyed by that handle.
    - A method that can throw returns a [result]. *)

From Stdlib Require Import ZArith QArith Lia Lqa List Ascii String.
From Equations Require Import Equations.
From stdpp Require Import gmap strings list sorting.

Local Open Scope Z_scope.

(** ** Exceptions *)

Inductive exn : Type :=
| Error       (* [new Error(...)] *)
| RangeError  (* [new RangeError(...)] *)
| TypeError.  (* raised by the runtime on [undefined] receivers *)

Inductive result (A : Type) : Type :=
| Ok (a : A)
| Throw (e : exn).
Arguments Ok {A} a.
Arguments Throw {A} e.

#[global] Instance result_ret : MRet result := λ A a, Ok a.
#[global] Instance result_bind : MBind result := λ A B k r,
  match r with
  | Ok a => k a
  | Throw e => Throw e
  end.

(** ** Interval primitives *)

(** Modelled from the spec: [OpenInterval] is not among the sources.
    "OpenInterval(start, end): half-open integer interval, start ≤ end.
    getLength = end−start.  getOverlap(other) returns the intersection
    interval or none if max(start) ≥ min(end)". *)
Record OpenInterval : Type := mkOpenInterval { start : Z; end_ : Z }.

#[global] Instance OpenInterval_eq_dec : EqDecision OpenInterval.
Proof. solve_decision. Defined.

Module OpenIntervalOps.
Definition getLength (i : OpenInterval) : Z := end_ i - start i.

Definition getOverlap (i other : OpenInterval) : option OpenInterval :=
  let intersectionStart := Z.max (start i) (start other) in
  let intersectionEnd := Z.min (end_ i) (end_ other) in
  if intersectionStart <? intersectionEnd
  then Some (mkOpenInterval intersectionStart intersectionEnd)
  else None.
End OpenIntervalOps.

(** Modelled from the spec: [ChromosomeInterval] is not among the sources.
    "ChromosomeInterval(chr, start, end): genomic locus; overlap requires
    equal chr".  The class extends [OpenInterval]; the base part is the
    coerced field. *)
Record ChromosomeInterval : Type := mkChromosomeInterval {
  chr : string;
  toOpenInterval :> OpenInterval
}.

Module ChromosomeIntervalOps.
Definition getOverlap (i other : ChromosomeInterval) : option ChromosomeInterval :=
  if decide (chr i = chr other)
  then mkChromosomeInterval (chr i) <$> OpenIntervalOps.getOverlap i other
  else None.
End ChromosomeIntervalOps.

(** Modelled from the spec: [Feature] is not among the sources.
    "Feature(name, locus): immutable value".  [handle] stands for the
    reference of the JavaScript object: two features are the same object
    exactly when their handles agree. *)
Record Feature : Type := mkFeature {
  handle : nat;
  name : string;
  locus : ChromosomeInterval
}.

Module FeatureOps.
Definition getName (f : Feature) : string := name f.
Definition getLocus (f : Feature) : ChromosomeInterval := locus f.
Definition getLength (f : Feature) : Z := OpenIntervalOps.getLength (locus f).
End FeatureOps.

(** Modelled from the spec: [FeatureSegment] is not among the sources.
    "FeatureSegment(feature, relativeStart, relativeEnd): sub-range of a
    Feature in feature-local coordinates [...] derives a genomic locus by
    offsetting the feature's own locus; supports overlap against a genomic
    locus or another segment of the same feature". *)
Record FeatureSegment : Type := mkFeatureSegment {
  feature : Feature;
  relativeStart : Z;
  relativeEnd : Z
}.

Module FeatureSegmentOps.
(** [new FeatureSegment(feature)]: the whole feature. *)
Definition whole (f : Feature) : FeatureSegment :=
  mkFeatureSegment f 0 (FeatureOps.getLength f).

Definition getLength (s : FeatureSegment) : Z :=
  relativeEnd s - relativeStart s.

Definition getLocus (s : FeatureSegment) : ChromosomeInterval :=
  let featureLocus := FeatureOps.getLocus (feature s) in
  mkChromosomeInterval (chr featureLocus)
    (mkOpenInterval (start featureLocus + relativeStart s)
                    (start featureLocus + relativeEnd s)).

Definition toOpenInterval (s : FeatureSegment) : OpenInterval :=
  mkOpenInterval (relativeStart s) (relativeEnd s).

(** Intersection with a genomic locus, as a segment of the same feature. *)
Definition getGenomeOverlap (s : FeatureSegment) (chrInterval : ChromosomeInterval)
  : option FeatureSegment :=
  let featureLocus := FeatureOps.getLocus (feature s) in
  match ChromosomeIntervalOps.getOverlap (getLocus s) chrInterval with
  | Some overlap =>
      Some (mkFeatureSegment (feature s)
              (start overlap - start featureLocus)
              (end_ overlap - start featureLocus))
  | None => None
  end.

(** Intersection with another segment; none unless both are segments of
    the same feature object. *)
Definition getOverlap (s other : FeatureSegment) : option FeatureSegment :=
  if decide (handle (feature s) = handle (feature other))
  then
    match OpenIntervalOps.getOverlap (toOpenInterval s) (toOpenInterval other) with
    | Some overlap => Some (mkFeatureSegment (feature s) (start overlap) (end_ overlap))
    | None => None
    end
  else None.
End FeatureSegmentOps.

(** ** lodash helpers used by NavigationContext *)

(** [_.sortedLastIndex(array, value)]: lodash's binary search
    ([baseSortedIndex] with [retHighest]); the loop
    [while (low < high) { mid = (low + high) >>> 1; ... }]. *)
Equations? baseSortedIndex (array : list Z) (value : Z) (low high : nat) : nat
  by wf (high - low)%nat lt :=
  baseSortedIndex array value low high with decide (low < high)%nat => {
    | left _ with array !! Nat.div2 (low + high) => {
        | Some computed with decide (computed <= value) => {
            | left _ := baseSortedIndex array value (S (Nat.div2 (low + high))) high;
            | right _ := baseSortedIndex array value low (Nat.div2 (low + high)) };
        | None := high };
    | right _ := high }.
Proof.
  all: pose proof (Nat.div2_odd (low + high)) as Hd;
    destruct (Nat.odd (low + high)); simpl in Hd; lia.
Qed.

Definition sortedLastIndex (array : list Z) (value : Z) : nat :=
  baseSortedIndex array value 0 (length array).

(** [_.groupBy(collection, iteratee)] into a plain object keyed by string;
    each group keeps the order of the collection.  The finite map holds the
    own properties of that object; what a read of the object finds for a
    key that is not an own property is in [objectPrototypeKeys]. *)
Definition groupBy {A} (iteratee : A → string) (collection : list A)
  : gmap string (list A) :=
  foldl (λ acc x, <[iteratee x := default [] (acc !! iteratee x) ++ [x]]> acc)
        ∅ collection.

(** The property names that every plain object inherits from
    [Object.prototype].  Reading one of them on an object that has no own
    property of that name yields a function (the prototype object itself
    for [__proto__]): a truthy value that is not iterable. *)
Definition objectPrototypeKeys : list string :=
  [ "constructor"; "toString"; "toLocaleString"; "valueOf"; "hasOwnProperty";
    "isPrototypeOf"; "propertyIsEnumerable"; "__proto__";
    "__defineGetter__"; "__defineSetter__"; "__lookupGetter__"; "__lookupSetter__" ].

(** [_.sumBy(array, iteratee)]. *)
Definition sumBy {A} (array : list A) (iteratee : A → Z) : Z :=
  foldl (λ acc x, acc + iteratee x) 0 array.

(** [Array.prototype.slice(0, k)]; a negative [k] counts from the end. *)
Definition slice0 {A} (l : list A) (k : Z) : list A :=
  if k <? 0 then take (length l - Z.to_nat (- k)) l else take (Z.to_nat k) l.

(** [Array.prototype.findIndex]: the first index whose element satisfies
    the predicate, or -1. *)
Fixpoint findIndexFrom {A} (p : A → bool) (l : list A) (i : Z) : Z :=
  match l with
  | [] => -1
  | x :: l' => if p x then i else findIndexFrom p l' (i + 1)
  end.

Definition findIndex {A} (p : A → bool) (l : list A) : Z := findIndexFrom p l 0.

(** ** The locus pattern of [parse] *)

Definition isDigit (c : ascii) : bool :=
  let n := nat_of_ascii c in (48 <=? n)%nat && (n <=? 57)%nat.

(** [\w]: ASCII letters, digits and underscore. *)
Definition isWordChar (c : ascii) : bool :=
  let n := nat_of_ascii c in
  ((48 <=? n)%nat && (n <=? 57)%nat) || ((65 <=? n)%nat && (n <=? 90)%nat)
  || ((97 <=? n)%nat && (n <=? 122)%nat) || (n =? 95)%nat.

Definition isColon (c : ascii) : bool := (nat_of_ascii c =? 58)%nat.
Definition isHyphen (c : ascii) : bool := (nat_of_ascii c =? 45)%nat.

(** Drops a leading run of digits ([\d*], greedy). *)
Fixpoint skipDigits (s : string) : string :=
  match s with
  | String c rest => if isDigit c then skipDigits rest else s
  | EmptyString => s
  end.

(** [s] starts with [:(\d+)-(\d+)].  A hyphen is not a digit, so the greedy
    run of digits is the only way to reach it. *)
Definition matchLocusTail (s : string) : bool :=
  match s with
  | String c (String d rest) =>
      isColon c && isDigit d &&
      match skipDigits rest with
      | String h (String d2 _) => isHyphen h && isDigit d2
      | _ => false
      end
  | _ => false
  end.

(** [/([\w:]+):(\d+)-(\d+)/] matches somewhere in [s]: some character of
    [[\w:]] is followed by the tail (the group [[\w:]+] can always be cut
    down to its last character). *)
Fixpoint intervalMatch (s : string) : bool :=
  match s with
  | EmptyString => false
  | String c rest =>
      ((isWordChar c || isColon c) && matchLocusTail rest) || intervalMatch rest
  end.

(** ** NavigationContext *)

Definition GAP_CHR : string := EmptyString.

Record NavigationContext : Type := mkNavigationContext {
  _name : string;
  _features : list Feature;
  _sortedFeatureStarts : list Z;
  _startCoordinateForFeature : gmap nat Z;
  _featuresForChr : gmap string (list Feature);
  _totalBases : Z
}.

Module NavContext.

(** [Math.round] is the identity on the integer lengths modelled here;
    [h] is the reference of the object that [new Feature] allocates. *)
Definition makeGap (h : nat) (length : Z) (name : string) : Feature :=
  mkFeature h name (mkChromosomeInterval GAP_CHR (mkOpenInterval 0 length)).

Definition isGapFeature (f : Feature) : bool :=
  bool_decide (chr (FeatureOps.getLocus f) = GAP_CHR).

(** The constructor's loop over [features]; the state is
    ([_startCoordinateForFeature], [_sortedFeatureStarts], [_totalBases]). *)
Fixpoint build (features : list Feature) (m : gmap nat Z) (starts : list Z) (total : Z)
  : result (gmap nat Z * list Z * Z) :=
  match features with
  | [] => Ok (m, starts, total)
  | f :: rest =>
      if decide (is_Some (m !! handle f)) then Throw Error
      else build rest (<[handle f := total]> m) (starts ++ [total])
                 (total + FeatureOps.getLength f)
  end.

Definition construct (name : string) (features : list Feature)
  : result NavigationContext :=
  '(m, starts, total) ← build features ∅ [] 0;
  Ok (mkNavigationContext name features starts m
        (groupBy (λ f, chr (FeatureOps.getLocus f)) features) total).

Section Methods.
Variable this : NavigationContext.

Definition getTotalBases : Z := _totalBases this.

Definition getIsValidBase (base : Z) : bool :=
  (0 <=? base) && (base <? _totalBases this).

Definition getFeatureStart (f : Feature) : result Z :=
  match _startCoordinateForFeature this !! handle f with
  | None => Throw RangeError
  | Some coordinate => Ok coordinate
  end.

(** [index] can be -1 only through an out-of-range array read, which
    yields [undefined] and makes [new FeatureSegment] fail. *)
Definition convertBaseToFeatureCoordinate (base : Z) : result FeatureSegment :=
  if negb (getIsValidBase base) then Throw RangeError
  else
    let index := Z.of_nat (sortedLastIndex (_sortedFeatureStarts this) base) - 1 in
    if index <? 0 then Throw TypeError
    else
      match _features this !! Z.to_nat index,
            _sortedFeatureStarts this !! Z.to_nat index with
      | Some f, Some s =>
          let coordinate := base - s in
          Ok (mkFeatureSegment f coordinate coordinate)
      | _, _ => Throw TypeError
      end.

Definition convertFeatureSegmentToContextCoordinates (segment : FeatureSegment)
  : result OpenInterval :=
  contextStart ← getFeatureStart (feature segment);
  Ok (mkOpenInterval (contextStart + relativeStart segment)
                     (contextStart + relativeEnd segment)).

(** The loop of [convertGenomeIntervalToBases] over [potentialOverlaps]. *)
Fixpoint genomeIntervalLoop (potentialOverlaps : list Feature)
    (chrInterval : ChromosomeInterval) (contextIntervals : list OpenInterval)
  : result (list OpenInterval) :=
  match potentialOverlaps with
  | [] => Ok contextIntervals
  | f :: rest =>
      match FeatureSegmentOps.getGenomeOverlap (FeatureSegmentOps.whole f) chrInterval with
      | Some overlap =>
          interval ← convertFeatureSegmentToContextCoordinates overlap;
          genomeIntervalLoop rest chrInterval (contextIntervals ++ [interval])
      | None => genomeIntervalLoop rest chrInterval contextIntervals
      end
  end.

(** [this._featuresForChr[chrInterval.chr] || []] followed by the
    [for ... of] over it: an own property is the array of that
    chromosome; a missing property is [undefined], replaced by the empty
    array; an inherited property is truthy and not iterable, and the
    loop throws a TypeError. *)
Definition convertGenomeIntervalToBases (chrInterval : ChromosomeInterval)
  : result (list OpenInterval) :=
  match _featuresForChr this !! chr chrInterval with
  | Some potentialOverlaps => genomeIntervalLoop potentialOverlaps chrInterval []
  | None =>
      if decide (chr chrInterval ∈ objectPrototypeKeys) then Throw TypeError
      else genomeIntervalLoop [] chrInterval []
  end.

Definition toGaplessCoordinate (base : Z) : result Z :=
  featureCoordinate ← convertBaseToFeatureCoordinate base;
  let featureIndex :=
    findIndex (λ f, bool_decide (handle f = handle (feature featureCoordinate)))
              (_features this) in
  let gapFeaturesBefore :=
    filter (λ f, isGapFeature f = true) (slice0 (_features this) featureIndex) in
  let gapBasesBefore := sumBy gapFeaturesBefore FeatureOps.getLength in
  let gapBasesBefore :=
    if isGapFeature (feature featureCoordinate)
    then gapBasesBefore + relativeStart featureCoordinate
    else gapBasesBefore in
  Ok (base - gapBasesBefore).

Section Parse.
(** [ChromosomeInterval.parse] is not among the sources; it is a
    parameter here (it may throw on text it does not accept). *)
Variable ChromosomeInterval_parse : string → result ChromosomeInterval.

Definition parse (str : string) : result OpenInterval :=
  if intervalMatch str then
    locus ← ChromosomeInterval_parse str;
    contextIntervals ← convertGenomeIntervalToBases locus;
    match contextIntervals !! 0%nat with
    | None => Throw RangeError
    | Some contextCoords => Ok contextCoords
    end
  else
    match List.find (λ f, bool_decide (FeatureOps.getName f = str))
                    (_features this) with
    | None => Throw RangeError
    | Some f =>
        convertFeatureSegmentToContextCoordinates (FeatureSegmentOps.whole f)
    end.
End Parse.

(** The loop of [getFeaturesInInterval]; returning [results] before the
    list is exhausted is the [break]. *)
Fixpoint featuresInIntervalLoop (features : list Feature)
    (queryInterval : OpenInterval) (includeGaps : bool)
    (results : list FeatureSegment) : result (list FeatureSegment) :=
  match features with
  | [] => Ok results
  | f :: rest =>
      if negb includeGaps && isGapFeature f
      then featuresInIntervalLoop rest queryInterval includeGaps results
      else
        start_ ← getFeatureStart f;
        let end' := start_ + FeatureOps.getLength f in
        match OpenIntervalOps.getOverlap (mkOpenInterval start_ end') queryInterval with
        | Some overlap =>
            let relativeStart := start overlap - start_ in
            let relativeEnd := end_ overlap - start_ in
            featuresInIntervalLoop rest queryInterval includeGaps
              (results ++ [mkFeatureSegment f relativeStart relativeEnd])
        | None =>
            if (0 <? length results)%nat then Ok results
            else featuresInIntervalLoop rest queryInterval includeGaps results
        end
  end.

(** The OpenInterval class refuses an end below its start; its check
    is not part of this definition, which describes the calls with
    [queryStart ≤ queryEnd]. *)
Definition getFeaturesInInterval (queryStart queryEnd : Z) (includeGaps : bool)
  : result (list FeatureSegment) :=
  let queryInterval := mkOpenInterval queryStart queryEnd in
  featuresInIntervalLoop (_features this) queryInterval includeGaps [].

End Methods.
End NavContext.


(** ** JavaScript numbers in draw space *)

(** Draw coordinates: a finite value, either infinity, or NaN.  Finite
    values are exact rationals and zero carries no sign: the rounding and
    the overflow of double arithmetic are not modelled, so of a computed
    finite value only its sign and its order with respect to its operands
    are meaningful, not exact sums or differences. *)
Inductive num : Type :=
| Fin (q : Q)
| PInf
| NInf
| NaN.

Module Num.
Definition ofZ (z : Z) : num := Fin (inject_Z z).

(** Sign of a rational, as a comparison with zero. *)
Definition sgn (q : Q) : comparison := (q ?= 0)%Q.

Definition neg (a : num) : num :=
  match a with
  | Fin x => Fin (- x)%Q
  | PInf => NInf
  | NInf => PInf
  | NaN => NaN
  end.

Definition add (a b : num) : num :=
  match a, b with
  | NaN, _ | _, NaN => NaN
  | Fin x, Fin y => Fin (x + y)%Q
  | PInf, NInf | NInf, PInf => NaN
  | PInf, _ | _, PInf => PInf
  | NInf, _ | _, NInf => NInf
  end.

Definition sub (a b : num) : num := add a (neg b).

Definition mul (a b : num) : num :=
  match a, b with
  | NaN, _ | _, NaN => NaN
  | Fin x, Fin y => Fin (x * y)%Q
  | Fin x, PInf | PInf, Fin x =>
      match sgn x with Gt => PInf | Lt => NInf | Eq => NaN end
  | Fin x, NInf | NInf, Fin x =>
      match sgn x with Gt => NInf | Lt => PInf | Eq => NaN end
  | PInf, PInf | NInf, NInf => PInf
  | PInf, NInf | NInf, PInf => NInf
  end.

(** Division never throws: a zero divisor gives an infinity, or NaN for
    0/0. *)
Definition div (a b : num) : num :=
  match a, b with
  | NaN, _ | _, NaN => NaN
  | Fin x, Fin y =>
      match sgn y with
      | Eq => match sgn x with Gt => PInf | Lt => NInf | Eq => NaN end
      | _ => Fin (x / y)%Q
      end
  | Fin _, PInf | Fin _, NInf => Fin 0
  | PInf, Fin y => match sgn y with Lt => NInf | _ => PInf end
  | NInf, Fin y => match sgn y with Lt => PInf | _ => NInf end
  | PInf, PInf | PInf, NInf | NInf, PInf | NInf, NInf => NaN
  end.

(** [a < b]; false as soon as an operand is NaN. *)
Definition ltb (a b : num) : bool :=
  match a, b with
  | Fin x, Fin y => match (x ?= y)%Q with Lt => true | _ => false end
  | NInf, Fin _ | NInf, PInf | Fin _, PInf => true
  | _, _ => false
  end.

(** [a <= b]; false as soon as an operand is NaN. *)
Definition leb (a b : num) : bool :=
  match a, b with
  | Fin x, Fin y => match (x ?= y)%Q with Gt => false | _ => true end
  | NInf, Fin _ | NInf, PInf | Fin _, PInf | NInf, NInf | PInf, PInf => true
  | _, _ => false
  end.

(** [Math.max(a, b)]; NaN as soon as an operand is NaN. *)
Definition max (a b : num) : num :=
  match a, b with
  | NaN, _ | _, NaN => NaN
  | _, _ => if leb a b then b else a
  end.

Definition isFinite (a : num) : bool :=
  match a with Fin _ => true | _ => false end.

Definition isNaN (a : num) : bool :=
  match a with NaN => true | _ => false end.
End Num.

(** An [OpenInterval] of draw coordinates. *)
Record XSpan : Type := mkXSpan { xstart : num; xend : num }.

Module XSpanOps.
Definition getLength (x : XSpan) : num := Num.sub (xend x) (xstart x).
End XSpanOps.

(** ** Collaborators of the placer and the arranger *)

(** Modelled from the spec: [LinearDrawingModel] is not among the sources.
    "baseToX(contextCoordinate) → pixelX; baseSpanToXSpan(OpenInterval) →
    OpenInterval in pixel space [...] Treated as an opaque, deterministic
    linear transform": an instance is the pair of its two methods. *)
Record LinearDrawingModel : Type := mkLinearDrawingModel {
  baseToX : Z → num;
  baseSpanToXSpan : OpenInterval → XSpan
}.

(** Modelled from the spec: [DisplayedRegionModel] is not among the
    sources; a view window is a context-coordinate interval of a
    navigation context. *)
Record DisplayedRegionModel : Type := mkDisplayedRegionModel {
  getNavigationContext : NavigationContext;
  getContextCoordinates : OpenInterval
}.

(** Modelled from the spec: [GenomeInteraction] is not among the sources;
    "each interaction carries two genomic loci". *)
Record GenomeInteraction : Type := mkGenomeInteraction {
  locus1 : ChromosomeInterval;
  locus2 : ChromosomeInterval
}.

(** ** FeaturePlacer *)

Record PlacedFeature : Type := mkPlacedFeature {
  placedFeature_feature : Feature;
  visiblePart : FeatureSegment;
  contextLocation : OpenInterval;
  xSpan : XSpan
}.

Record PlacedSegment : Type := mkPlacedSegment {
  segment : FeatureSegment;
  segment_xSpan : XSpan
}.

Record PlacedInteraction : Type := mkPlacedInteraction {
  interaction : GenomeInteraction;
  xSpan1 : XSpan;
  xSpan2 : XSpan
}.

(** [new PlacedInteraction(interaction, xSpan1, xSpan2)]. *)
Definition newPlacedInteraction (interaction : GenomeInteraction)
    (xSpan1 xSpan2 : XSpan) : PlacedInteraction :=
  if Num.leb (xstart xSpan1) (xstart xSpan2)
  then mkPlacedInteraction interaction xSpan1 xSpan2
  else mkPlacedInteraction interaction xSpan2 xSpan1.

(** [PlacedInteraction.getWidth()]: the length of the interaction in draw
    coordinates. *)
Definition PlacedInteraction_getWidth (this : PlacedInteraction) : num :=
  let start_ := xstart (xSpan1 this) in
  let end' := Num.max (xend (xSpan1 this)) (xend (xSpan2 this)) in
  Num.sub end' start_.

Module FeaturePlacer.

(** The FeatureSegment class refuses bounds outside the feature; its
    check is not part of this definition, which describes the calls whose
    segment lies inside [feature]. *)
Definition _getVisibleSegment (feature : Feature) (navContext : NavigationContext)
    (contextLocation : OpenInterval) : result FeatureSegment :=
  placed ← NavContext.convertBaseToFeatureCoordinate navContext (start contextLocation);
  let placedLocus := FeatureSegmentOps.getLocus placed in
  let distFromFeatureLocus := start placedLocus - start (FeatureOps.getLocus feature) in
  let relativeStart := Z.max 0 distFromFeatureLocus in
  Ok (mkFeatureSegment feature relativeStart
        (relativeStart + OpenIntervalOps.getLength contextLocation)).

Section PlaceFeatures.
(** [new LinearDrawingModel(viewRegion, width)]. *)
Variable newLinearDrawingModel : DisplayedRegionModel → num → LinearDrawingModel.
(** [feature.computeNavContextCoordinates(navContext)], a method of the
    [Feature] class, which is not among the sources: a parameter. *)
Variable computeNavContextCoordinates :
  Feature → NavigationContext → result (list OpenInterval).

(** The inner loop of [placeFeatures] over the context locations of one
    feature. *)
Fixpoint locationsLoop (drawModel : LinearDrawingModel)
    (viewRegionBounds : OpenInterval) (navContext : NavigationContext)
    (feature : Feature) (contextLocations : list OpenInterval)
    (placements : list PlacedFeature) : result (list PlacedFeature) :=
  match contextLocations with
  | [] => Ok placements
  | contextLocation :: rest =>
      match OpenIntervalOps.getOverlap contextLocation viewRegionBounds with
      | Some contextLocation =>
          let xSpan := baseSpanToXSpan drawModel contextLocation in
          visiblePart ← _getVisibleSegment feature navContext contextLocation;
          locationsLoop drawModel viewRegionBounds navContext feature rest
            (placements ++ [mkPlacedFeature feature visiblePart contextLocation xSpan])
      | None =>
          locationsLoop drawModel viewRegionBounds navContext feature rest placements
      end
  end.

Fixpoint featuresLoop (drawModel : LinearDrawingModel)
    (viewRegionBounds : OpenInterval) (navContext : NavigationContext)
    (features : list Feature) (placements : list PlacedFeature)
  : result (list PlacedFeature) :=
  match features with
  | [] => Ok placements
  | feature :: rest =>
      contextLocations ← computeNavContextCoordinates feature navContext;
      placements ← locationsLoop drawModel viewRegionBounds navContext feature
                     contextLocations placements;
      featuresLoop drawModel viewRegionBounds navContext rest placements
  end.

Definition placeFeatures (features : list Feature)
    (viewRegion : DisplayedRegionModel) (width : num)
  : result (list PlacedFeature) :=
  let drawModel := newLinearDrawingModel viewRegion width in
  let viewRegionBounds := getContextCoordinates viewRegion in
  let navContext := getNavigationContext viewRegion in
  featuresLoop drawModel viewRegionBounds navContext features [].
End PlaceFeatures.

Definition placeFeatureSegments (placedFeature : PlacedFeature)
    (segments : list FeatureSegment) : list PlacedSegment :=
  let pixelsPerBase :=
    Num.div (XSpanOps.getLength (xSpan placedFeature))
            (Num.ofZ (OpenIntervalOps.getLength (contextLocation placedFeature))) in
  foldl (λ placements segment,
    match FeatureSegmentOps.getOverlap segment (visiblePart placedFeature) with
    | Some visibleSegment =>
        let basesFromVisiblePart :=
          relativeStart visibleSegment - relativeStart (visiblePart placedFeature) in
        let distanceFromXSpan := Num.mul (Num.ofZ basesFromVisiblePart) pixelsPerBase in
        let xSpanStart := Num.add (xstart (xSpan placedFeature)) distanceFromXSpan in
        let xSpanLength :=
          Num.mul (Num.ofZ (FeatureSegmentOps.getLength visibleSegment)) pixelsPerBase in
        placements ++
          [mkPlacedSegment visibleSegment
             (mkXSpan xSpanStart (Num.add xSpanStart xSpanLength))]
    | None => placements
    end) [] segments.

Section PlaceInteractions.
(** [new LinearDrawingModel(viewRegion, width)]. *)
Variable newLinearDrawingModel : DisplayedRegionModel → num → LinearDrawingModel.

(** The two inner loops over the clamped locations of one interaction. *)
Definition pairLoop (drawModel : LinearDrawingModel) (interaction : GenomeInteraction)
    (contextLocations1 contextLocations2 : list (option OpenInterval))
    (mappedInteractions : list PlacedInteraction) : list PlacedInteraction :=
  foldl (λ acc1 location1,
    foldl (λ acc2 location2,
      match location1, location2 with
      | Some l1, Some l2 =>
          let xSpan1 := baseSpanToXSpan drawModel l1 in
          let xSpan2 := baseSpanToXSpan drawModel l2 in
          acc2 ++ [newPlacedInteraction interaction xSpan1 xSpan2]
      | _, _ => acc2
      end) acc1 contextLocations2) mappedInteractions contextLocations1.

Fixpoint interactionsLoop (drawModel : LinearDrawingModel)
    (viewRegionBounds : OpenInterval) (navContext : NavigationContext)
    (interactions : list GenomeInteraction)
    (mappedInteractions : list PlacedInteraction)
  : result (list PlacedInteraction) :=
  match interactions with
  | [] => Ok mappedInteractions
  | interaction :: rest =>
      contextLocations1 ←
        NavContext.convertGenomeIntervalToBases navContext (locus1 interaction);
      contextLocations2 ←
        NavContext.convertGenomeIntervalToBases navContext (locus2 interaction);
      let contextLocations1 :=
        map (λ location, OpenIntervalOps.getOverlap location viewRegionBounds)
            contextLocations1 in
      let contextLocations2 :=
        map (λ location, OpenIntervalOps.getOverlap location viewRegionBounds)
            contextLocations2 in
      interactionsLoop drawModel viewRegionBounds navContext rest
        (pairLoop drawModel interaction contextLocations1 contextLocations2
                  mappedInteractions)
  end.

Definition placeInteractions (interactions : list GenomeInteraction)
    (viewRegion : DisplayedRegionModel) (width : num)
  : result (list PlacedInteraction) :=
  let drawModel := newLinearDrawingModel viewRegion width in
  let viewRegionBounds := getContextCoordinates viewRegion in
  let navContext := getNavigationContext viewRegion in
  interactionsLoop drawModel viewRegionBounds navContext interactions [].
End PlaceInteractions.
End FeaturePlacer.

(** ** IntervalArranger *)

(** [Array.prototype.sort(compareFn)], which sorts the array in place and
    is stable: modelled by a stable insertion sort; the sorted content is
    what the array holds afterwards. *)
Fixpoint sortInsert {A} (compareFn : A → A → Z) (x : A) (l : list A) : list A :=
  match l with
  | [] => [x]
  | y :: l' =>
      if compareFn x y <=? 0 then x :: y :: l' else y :: sortInsert compareFn x l'
  end.

Definition arraySort {A} (compareFn : A → A → Z) (l : list A) : list A :=
  foldr (sortInsert compareFn) [] l.

(** The fields the constructor sets.  [getPadding] is called with the
    interval object; an interval is modelled by its bounds, so here the
    padding of an interval is a function of its start and end, and two
    interval objects with the same bounds are one value. *)
Record IntervalArranger : Type := mkIntervalArranger {
  drawModel : LinearDrawingModel;
  numRows : Z;
  getPadding : OpenInterval → num
}.

Module Arranger.
(** The comparison function handed to [sort]. *)
Definition compareIntervals (interval1 interval2 : OpenInterval) : Z :=
  let startComparison := start interval1 - start interval2 in
  if startComparison =? 0
  then OpenIntervalOps.getLength interval2 - OpenIntervalOps.getLength interval1
  else startComparison.

Definition _sortIntervals (intervals : list OpenInterval) : list OpenInterval :=
  arraySort compareIntervals intervals.

Section Methods.
Variable this : IntervalArranger.

(** One iteration of the loop of [arrange]: the row found for
    [interval] and the rows' occupied coordinates afterwards. *)
Definition placeInterval (maxXsForRows : list num) (interval : OpenInterval)
  : Z * list num :=
  let horizontalPadding := getPadding this interval in
  let startX := Num.sub (baseToX (drawModel this) (start interval)) horizontalPadding in
  let row := findIndex (λ maxX, Num.ltb maxX startX) maxXsForRows in
  if negb (row =? -1) then
    let endX := baseToX (drawModel this) (end_ interval) in
    (row, <[Z.to_nat row := Num.add endX horizontalPadding]> maxXsForRows)
  else (row, maxXsForRows).

Fixpoint arrangeLoop (sortedIntervals : list OpenInterval)
    (maxXsForRows : list num) (rowIndices : list Z) : list Z :=
  match sortedIntervals with
  | [] => rowIndices
  | interval :: rest =>
      let '(row, maxXsForRows') := placeInterval maxXsForRows interval in
      arrangeLoop rest maxXsForRows' (rowIndices ++ [row])
  end.

(** [arrange(intervals)]: the returned row indices, and the content of
    the array [intervals] when the call returns ([_sortIntervals] sorts
    that very array). *)
Definition arrange (intervals : list OpenInterval)
  : list Z * list OpenInterval :=
  if numRows this <=? 0
  then (replicate (length intervals) (-1), intervals)
  else
    let maxXsForRows := replicate (Z.to_nat (numRows this)) NInf in
    let sortedIntervals := _sortIntervals intervals in
    (arrangeLoop sortedIntervals maxXsForRows [], sortedIntervals).
End Methods.
End Arranger.

(** ** Specification-side notions *)

(** Non-decreasing arrays, by index. *)
Definition sortedArray (array : list Z) : Prop :=
  ∀ (i j : nat) (a b : Z),
    (i ≤ j)%nat → array !! i = Some a → array !! j = Some b → a ≤ b.

(** Cumulative start offsets of [features], counted from [total]. *)
Fixpoint offsetsFrom (features : list Feature) (total : Z) : list Z :=
  match features with
  | [] => []
  | f :: rest => total :: offsetsFrom rest (total + FeatureOps.getLength f)
  end.

Definition totalLength (features : list Feature) : Z :=
  foldr (λ f acc, FeatureOps.getLength f + acc) 0 features.

(** A three-feature context used in the examples: a 10bp feature, a 10bp
    gap and another 10bp feature. *)
Definition exampleFeatures : list Feature :=
  [ mkFeature 1 "f1" (mkChromosomeInterval "chr1" (mkOpenInterval 0 10));
    NavContext.makeGap 2 10 "Gap";
    mkFeature 3 "f2" (mkChromosomeInterval "chr1" (mkOpenInterval 20 30)) ].


(** Two distinct feature objects that carry the same name. *)
Definition sameNameFeatures : list Feature :=
  [ mkFeature 1 "f" (mkChromosomeInterval "chr1" (mkOpenInterval 0 10));
    mkFeature 2 "f" (mkChromosomeInterval "chr1" (mkOpenInterval 20 30)) ].

(** Object identity: in a list of JavaScript objects, equal references
    denote the same object. *)
Definition coherent (features : list Feature) : Prop :=
  ∀ f g, f ∈ features → g ∈ features → handle f = handle g → f = g.

(** The class invariant of [OpenInterval], for the locus of a feature. *)
Definition wfFeature (f : Feature) : Prop := 0 ≤ FeatureOps.getLength f.

(** Total length of the gap features among the first [i] features. *)
Definition gapLengthBefore (features : list Feature) (i : nat) : Z :=
  totalLength (filter (λ f, NavContext.isGapFeature f = true) (take i features)).

(** The context intervals of a locus that survive clipping to the view. *)
Definition clippedLocations (viewRegion : DisplayedRegionModel)
    (l : ChromosomeInterval) : list OpenInterval :=
  omap (λ location, OpenIntervalOps.getOverlap location (getContextCoordinates viewRegion))
       (match NavContext.convertGenomeIntervalToBases (getNavigationContext viewRegion) l with
        | Ok locations => locations
        | Throw _ => []
        end).

(** One placed interaction per pair of surviving intervals of the two loci
    of [it], first locus outermost. *)
Definition placedPairs (dm : LinearDrawingModel) (viewRegion : DisplayedRegionModel)
    (it : GenomeInteraction) : list PlacedInteraction :=
  map (λ p, newPlacedInteraction it (baseSpanToXSpan dm p.1) (baseSpanToXSpan dm p.2))
      (list_prod (clippedLocations viewRegion (locus1 it))
                 (clippedLocations viewRegion (locus2 it))).

(** The pixel spans of a placed interaction are in canonical order. *)
Definition orderedSpans (p : PlacedInteraction) : Prop :=
  Num.leb (xstart (xSpan1 p)) (xstart (xSpan2 p)) = true.

(** The example context, as the constructor builds it. *)
Definition exampleContext : NavigationContext :=
  match NavContext.construct "ctx" exampleFeatures with
  | Ok ctx => ctx
  | Throw _ => mkNavigationContext "ctx" [] [] ∅ ∅ 0
  end.

(** A drawing model of one pixel per base, with the origin at base 0. *)
Definition unitDrawingModel : LinearDrawingModel :=
  mkLinearDrawingModel Num.ofZ
    (λ i, mkXSpan (Num.ofZ (start i)) (Num.ofZ (end_ i))).

Definition exampleView : DisplayedRegionModel :=
  mkDisplayedRegionModel exampleContext (mkOpenInterval 0 30).

(** The placement of one segment by [placeFeatureSegments], for a parent
    placed at pixel [x0] with [pixelsPerBase] pixels per base: none when the
    segment misses the visible part. *)
Definition placedSegmentOf (placedFeature : PlacedFeature) (x0 pixelsPerBase : Q)
    (s : FeatureSegment) : option PlacedSegment :=
  match FeatureSegmentOps.getOverlap s (visiblePart placedFeature) with
  | Some visibleSegment =>
      let xSpanStart :=
        (x0 + inject_Z (relativeStart visibleSegment
                        - relativeStart (visiblePart placedFeature)) * pixelsPerBase)%Q in
      Some (mkPlacedSegment visibleSegment
              (mkXSpan (Fin xSpanStart)
                 (Fin (xSpanStart +
                       inject_Z (FeatureSegmentOps.getLength visibleSegment)
                       * pixelsPerBase)%Q)))
  | None => None
  end.

(** A finite, well-formed pixel span. *)
Definition finiteSpan (x : XSpan) : Prop :=
  ∃ a b : Q, x = mkXSpan (Fin a) (Fin b) ∧ (a <= b)%Q.

(** The order [arrange] processes intervals in: ascending start, and among
    equal starts the longer interval first. *)
Definition precedes (a b : OpenInterval) : Prop :=
  start a < start b ∨
  (start a = start b ∧ OpenIntervalOps.getLength b ≤ OpenIntervalOps.getLength a).

Module ArrangerSpec.
Section Spec.
Variable this : IntervalArranger.

(** Pixel start of an interval, less its padding. *)
Definition paddedStart (interval : OpenInterval) : num :=
  Num.sub (baseToX (drawModel this) (start interval)) (getPadding this interval).

(** Pixel end of an interval, plus its padding. *)
Definition paddedEnd (interval : OpenInterval) : num :=
  Num.add (baseToX (drawModel this) (end_ interval)) (getPadding this interval).

(** A row is free for an interval when its rightmost occupied
    coordinate is strictly less than the interval's padded start. *)
Definition freeFor (maxX : num) (interval : OpenInterval) : Prop :=
  Num.ltb maxX (paddedStart interval) = true.

(** First fit, as a relation between the rows' occupied coordinates,
    the intervals in processing order and the rows they receive. *)
Inductive FirstFit : list num → list OpenInterval → list Z → Prop :=
| FirstFit_nil rows : FirstFit rows [] []
| FirstFit_fit rows interval rest (r : nat) maxX rs :
    rows !! r = Some maxX →
    freeFor maxX interval →
    (∀ (j : nat) m, (j < r)%nat → rows !! j = Some m → ¬ freeFor m interval) →
    FirstFit (<[r := paddedEnd interval]> rows) rest rs →
    FirstFit rows (interval :: rest) (Z.of_nat r :: rs)
| FirstFit_none rows interval rest rs :
    (∀ (j : nat) m, rows !! j = Some m → ¬ freeFor m interval) →
    FirstFit rows rest rs →
    FirstFit rows (interval :: rest) (-1 :: rs).

(** The rows' occupied coordinates once the intervals of [placed] have
    been placed, in that order, starting from empty rows. *)
Definition rowsAfter (placed : list OpenInterval) : list num :=
  foldl (λ rows interval, (Arranger.placeInterval this rows interval).2)
        (replicate (Z.to_nat (numRows this)) NInf) placed.

(** The row given to [x] by [arrange intervals]: the returned index at
    the position where [x] was processed. *)
Definition assignedRow (intervals : list OpenInterval) (x : OpenInterval)
  : option Z :=
  p ← list_find (λ y, y = x) (Arranger.arrange this intervals).2;
  (Arranger.arrange this intervals).1 !! p.1.
End Spec.
End ArrangerSpec.

(** The intervals of the arrangement example. *)
Definition intervalA : OpenInterval := mkOpenInterval 0 10.
Definition intervalB : OpenInterval := mkOpenInterval 5 15.
Definition intervalC : OpenInterval := mkOpenInterval 12 20.

(** First fit over base coordinates, for an arranger without padding whose
    drawing model is strictly increasing: a row is [None] while empty and
    [Some e] once occupied up to base [e]. *)
Module BaseRows.
Definition free (s : Z) (row : option Z) : bool :=
  match row with
  | None => true
  | Some e => bool_decide (e < s)
  end.

Definition place (rows : list (option Z)) (interval : OpenInterval)
  : Z * list (option Z) :=
  let row := findIndex (free (start interval)) rows in
  if negb (row =? -1)
  then (row, <[Z.to_nat row := Some (end_ interval)]> rows)
  else (row, rows).

Fixpoint assign (intervals : list OpenInterval) (rows : list (option Z)) : list Z :=
  match intervals with
  | [] => []
  | interval :: rest =>
      (place rows interval).1 :: assign rest (place rows interval).2
  end.

(** The pixel coordinate a row stands for, under [baseToX = X]. *)
Definition toPixel (X : Z → Q) (row : option Z) : num :=
  match row with
  | None => NInf
  | Some e => Fin (X e + 0)
  end.
End BaseRows.

(** An arranger with a single row, one pixel per base and no padding. *)
Definition singleRowArranger : IntervalArranger :=
  mkIntervalArranger unitDrawingModel 1 (λ _, Fin 0).

(** A context whose middle feature is an empty gap. *)
Definition emptyGapFeatures : list Feature :=
  [ mkFeature 1 "f1" (mkChromosomeInterval "chr1" (mkOpenInterval 0 10));
    NavContext.makeGap 2 0 "Gap";
    mkFeature 3 "f2" (mkChromosomeInterval "chr1" (mkOpenInterval 20 30)) ].

(** The part of the feature [f], placed at context coordinate [s], that
    lies inside the query. *)
Definition clipTo (queryStart queryEnd : Z) (f : Feature) (s : Z)
  : option FeatureSegment :=
  match OpenIntervalOps.getOverlap (mkOpenInterval s (s + FeatureOps.getLength f))
                                   (mkOpenInterval queryStart queryEnd) with
  | Some overlap => Some (mkFeatureSegment f (start overlap - s) (end_ overlap - s))
  | None => None
  end.

(** Whether [getFeaturesInInterval] looks at a feature at all. *)
Definition considered (includeGaps : bool) (f : Feature) : bool :=
  negb (negb includeGaps && NavContext.isGapFeature f).

(** Every considered feature clipped to the query, in feature order;
    [total] is the context coordinate of the first feature of the list. *)
Fixpoint overlapping (queryStart queryEnd : Z) (includeGaps : bool)
    (features : list Feature) (total : Z) : list FeatureSegment :=
  match features with
  | [] => []
  | f :: rest =>
      (if considered includeGaps f
       then option_list (clipTo queryStart queryEnd f total) else []) ++
      overlapping queryStart queryEnd includeGaps rest (total + FeatureOps.getLength f)
  end.

(** Strings made of digits only. *)
Fixpoint allDigits (s : string) : bool :=
  match s with
  | EmptyString => true
  | String c rest => isDigit c && allDigits rest
  end.

(** A stand-in for [ChromosomeInterval.parse] on the strings of the
    example below. *)
Definition exampleLocusParser (str : string) : result ChromosomeInterval :=
  if decide (str = "chr1:5-25")
  then Ok (mkChromosomeInterval "chr1" (mkOpenInterval 5 25))
  else if decide (str = "chr9:0-5")
  then Ok (mkChromosomeInterval "chr9" (mkOpenInterval 0 5))
  else Throw RangeError.

(** A chromosome name on which the object of grouped features answers as a
    map does: some feature of the list lies on it (an own property), or it
    names no inherited property (a missing one). *)
Definition plainChr (features : list Feature) (c : string) : Prop :=
  c ∉ objectPrototypeKeys ∨ ∃ f, f ∈ features ∧ chr (locus f) = c.

(** A stand-in for [ChromosomeInterval.parse] that reads the text
    "constructor:1-2" as the locus it spells. *)
Definition inheritedNameParser (str : string) : result ChromosomeInterval :=
  if decide (str = "constructor:1-2")
  then Ok (mkChromosomeInterval "constructor" (mkOpenInterval 1 2))
  else Throw RangeError.

(** A context with a feature whose name contains a locus. *)
Definition locusLikeNameFeatures : list Feature :=
  [ mkFeature 1 "enhancer near chr1:100-200 (hg19)"
      (mkChromosomeInterval "chr2" (mkOpenInterval 0 10)) ].

(** A stand-in for [ChromosomeInterval.parse] that finds the locus
    chr1:100-200 inside the text of that name. *)
Definition embeddedLocusParser (str : string) : result ChromosomeInterval :=
  if decide (str = "enhancer near chr1:100-200 (hg19)")
  then Ok (mkChromosomeInterval "chr1" (mkOpenInterval 100 200))
  else Throw RangeError.

(** Two interactions: one inside chr1, one with a locus on a chromosome
    named "constructor". *)
Definition inheritedNameInteractions : list GenomeInteraction :=
  [ mkGenomeInteraction (mkChromosomeInterval "chr1" (mkOpenInterval 5 25))
                        (mkChromosomeInterval "chr1" (mkOpenInterval 0 10));
    mkGenomeInteraction (mkChromosomeInterval "constructor" (mkOpenInterval 0 1))
                        (mkChromosomeInterval "chr1" (mkOpenInterval 0 10)) ].

(** The pairs of surviving clipped context intervals of the two loci of
    each interaction, interaction by interaction, first locus outermost. *)
Definition survivingPairs (viewRegion : DisplayedRegionModel)
    (interactions : list GenomeInteraction)
  : list (GenomeInteraction * (OpenInterval * OpenInterval)) :=
  interactions ≫= λ it,
    (λ p, (it, p)) <$> list_prod (clippedLocations viewRegion (locus1 it))
                                 (clippedLocations viewRegion (locus2 it)).

(** [placed] is the placement of the pair [(l1, l2)] of the interaction
    [it]: it carries [it] and the pixel spans of [l1] and [l2], in one
    order or the other. *)
Definition placesPair (dm : LinearDrawingModel) (placed : PlacedInteraction)
    (pair : GenomeInteraction * (OpenInterval * OpenInterval)) : Prop :=
  interaction placed = pair.1 ∧
  ((xSpan1 placed = baseSpanToXSpan dm pair.2.1 ∧
    xSpan2 placed = baseSpanToXSpan dm pair.2.2) ∨
   (xSpan1 placed = baseSpanToXSpan dm pair.2.2 ∧
    xSpan2 placed = baseSpanToXSpan dm pair.2.1)).

(** The context interval that the feature [f], placed at context coordinate
    [s], contributes to the genomic lookup of [chrInterval]: the part of
    its locus inside [chrInterval], shifted to context coordinates. *)
Definition genomeClip (chrInterval : ChromosomeInterval) (f : Feature) (s : Z)
  : option OpenInterval :=
  if decide (chr (locus f) = chr chrInterval) then
    match OpenIntervalOps.getOverlap (locus f) chrInterval with
    | Some overlap =>
        Some (mkOpenInterval (s + (start overlap - start (locus f)))
                             (s + (end_ overlap - start (locus f))))
    | None => None
    end
  else None.

(** The contributions of all features, in feature order; [total] is the
    context coordinate of the first feature of the list. *)
Fixpoint genomeHits (chrInterval : ChromosomeInterval) (features : list Feature)
    (total : Z) : list OpenInterval :=
  match features with
  | [] => []
  | f :: rest =>
      option_list (genomeClip chrInterval f total) ++
      genomeHits chrInterval rest (total + FeatureOps.getLength f)
  end.

(** The placement [placeFeatures] makes of a feature for one of its
    context locations: none when the location misses the view. *)
Definition placementOf (dm : LinearDrawingModel) (viewRegion : DisplayedRegionModel)
    (f : Feature) (location : OpenInterval) : option PlacedFeature :=
  match OpenIntervalOps.getOverlap location (getContextCoordinates viewRegion) with
  | Some contextLocation =>
      match FeaturePlacer._getVisibleSegment f (getNavigationContext viewRegion)
                                             contextLocation with
      | Ok visiblePart =>
          Some (mkPlacedFeature f visiblePart contextLocation
                  (baseSpanToXSpan dm contextLocation))
      | Throw _ => None
      end
  | None => None
  end.

(** The list a [result] holds, empty when it is an exception. *)
Definition okList {A} (r : result (list A)) : list A :=
  match r with
  | Ok l => l
  | Throw _ => []
  end.

(** A view that lies inside its navigation context. *)
Definition viewInsideContext (viewRegion : DisplayedRegionModel) : Prop :=
  0 ≤ start (getContextCoordinates viewRegion) ∧
  end_ (getContextCoordinates viewRegion)
    ≤ NavContext.getTotalBases (getNavigationContext viewRegion).

(** The class invariant of [OpenInterval]. *)
Definition wfInterval (i : OpenInterval) : Prop := start i ≤ end_ i.

(** Number of rows that hold no interval yet. *)
Definition emptyRows (rows : list (option Z)) : nat :=
  length (filter (λ row, row = None) rows).
(** * Properties *)

(** ** Binary search *)

Lemma div2_between (low high : nat) :
  (low < high)%nat → (low ≤ Nat.div2 (low + high) < high)%nat.
Proof.
  intros Hlt. pose proof (Nat.div2_odd (low + high)) as Hd.
  destruct (Nat.odd (low + high)); simpl in Hd; lia.
Qed.

Ltac mid_facts :=
  match goal with
  | _ : decide (?low < ?high)%nat = left ?Hlt |- _ =>
      pose proof (div2_between low high Hlt) as Hm
  end.

(** The search never leaves the window it is given. *)
Lemma baseSortedIndex_bounds (array : list Z) (value : Z) (low high : nat) :
  (low ≤ high)%nat →
  (low ≤ baseSortedIndex array value low high ≤ high)%nat.
Proof.
  funelim (baseSortedIndex array value low high); intros Hle;
    try lia.
  - mid_facts.
    match goal with IH : _ → (_ ≤ baseSortedIndex _ _ _ _ ≤ _)%nat |- _ =>
      specialize (IH ltac:(lia)) end. lia.
  - mid_facts.
    match goal with IH : _ → (_ ≤ baseSortedIndex _ _ _ _ ≤ _)%nat |- _ =>
      specialize (IH ltac:(lia)) end. lia.
Qed.

(** If the first element is not above [value], the search never returns 0:
    [high] only moves to a [mid] whose element exceeds [value]. *)
Lemma baseSortedIndex_pos (array : list Z) (value : Z) (low high : nat) (a0 : Z) :
  array !! 0%nat = Some a0 → a0 ≤ value →
  (low ≤ high)%nat → (0 < high)%nat →
  (0 < baseSortedIndex array value low high)%nat.
Proof.
  funelim (baseSortedIndex array value low high); intros H0 Ha Hle Hpos;
    try lia.
  - mid_facts.
    match goal with IH : context [baseSortedIndex] |- _ =>
      apply (IH a0); auto; lia end.
  - mid_facts.
    assert (Nat.div2 (low + high) ≠ 0%nat) as Hne.
    { intros Hz.
      match goal with Hmid : array !! Nat.div2 _ = Some _ |- _ =>
        rewrite Hz in Hmid; simplify_eq end. lia. }
    match goal with IH : context [baseSortedIndex] |- _ =>
      apply (IH a0); auto; lia end.
Qed.

(** On a sorted array the search splits it: everything left of the result
    is [≤ value], everything from the result on is [> value]. *)
Lemma baseSortedIndex_split (array : list Z) (value : Z) (low high : nat) :
  sortedArray array →
  (low ≤ high ≤ length array)%nat →
  (∀ (i : nat) a, (i < low)%nat → array !! i = Some a → a ≤ value) →
  (∀ (i : nat) a, (high ≤ i)%nat → array !! i = Some a → value < a) →
  (∀ (i : nat) a, (i < baseSortedIndex array value low high)%nat →
     array !! i = Some a → a ≤ value) ∧
  (∀ (i : nat) a, (baseSortedIndex array value low high ≤ i)%nat →
     array !! i = Some a → value < a).
Proof.
  funelim (baseSortedIndex array value low high);
    intros Hs Hb Hlo Hhi.
  - assert (low = high) by lia. subst. split; auto.
  - mid_facts.
    match goal with Hmid : array !! Nat.div2 _ = None |- _ =>
      apply lookup_ge_None in Hmid end. lia.
  - mid_facts.
    match goal with IH : context [baseSortedIndex] |- _ =>
      apply IH; auto; try lia end.
    intros i a Hi Hia.
    apply Z.le_trans with computed; [|done].
    apply (Hs i (Nat.div2 (low + high)) a computed); auto; lia.
  - mid_facts.
    match goal with IH : context [baseSortedIndex] |- _ =>
      apply IH; auto; try lia end.
    intros i a Hi Hia.
    apply Z.lt_le_trans with computed; [lia|].
    apply (Hs (Nat.div2 (low + high)) i computed a); auto.
Qed.

(** ** Construction: prefix sums and the identity-keyed map *)

Lemma length_offsetsFrom features total :
  length (offsetsFrom features total) = length features.
Proof. revert total; induction features; simpl; auto. Qed.

Lemma offsetsFrom_lookup_lt features total (i : nat) :
  (i < length features)%nat → is_Some (offsetsFrom features total !! i).
Proof. intros. apply lookup_lt_is_Some. by rewrite length_offsetsFrom. Qed.

(** What a successful run of the constructor's loop has established. *)
Lemma build_inv features : ∀ m starts total m' starts' total',
  NavContext.build features m starts total = Ok (m', starts', total') →
  starts' = starts ++ offsetsFrom features total ∧
  total' = total + totalLength features ∧
  NoDup (handle <$> features) ∧
  (∀ f, f ∈ features → m !! handle f = None) ∧
  (∀ h, h ∉ (handle <$> features) → m' !! h = m !! h) ∧
  (∀ (i : nat) f, features !! i = Some f →
     m' !! handle f = offsetsFrom features total !! i).
Proof.
  induction features as [|f rest IH]; intros m starts total m' starts' total' Hb;
    simpl in Hb.
  - simplify_eq. rewrite app_nil_r. simpl. split_and!; auto; try lia.
    + constructor.
    + intros f Hf. by apply elem_of_nil in Hf.
    + intros i f Hf. done.
  - destruct (decide (is_Some (m !! handle f))) as [|Hnone]; [done|].
    apply IH in Hb as (Hst & Htot & Hnd & Hfresh & Hframe & Hget).
    assert (m !! handle f = None) as Hf0.
    { destruct (m !! handle f) eqn:E; [exfalso; eauto|done]. }
    assert (handle f ∉ handle <$> rest) as Hnotin.
    { intros (g & Hg & Hin)%list_elem_of_fmap.
      specialize (Hfresh g Hin). rewrite <- Hg, lookup_insert_eq in Hfresh. done. }
    split_and!.
    + rewrite Hst, <- app_assoc. done.
    + simpl. lia.
    + simpl. constructor; auto.
    + intros g [->|Hg]%elem_of_cons; [done|].
      specialize (Hfresh g Hg).
      destruct (decide (handle f = handle g)) as [e|ne].
      * rewrite <- e, lookup_insert_eq in Hfresh. done.
      * by rewrite lookup_insert_ne in Hfresh.
    + intros h Hh. simpl in Hh. apply not_elem_of_cons in Hh as [Hne Hh].
      rewrite Hframe; [|done]. by rewrite lookup_insert_ne.
    + intros [|i] g Hg; simpl in *.
      * simplify_eq. rewrite Hframe; [|done]. by rewrite lookup_insert_eq.
      * by apply Hget.
Qed.

(** Everything a successfully constructed context records. *)
Lemma construct_inv name features ctx :
  NavContext.construct name features = Ok ctx →
  _features ctx = features ∧
  _sortedFeatureStarts ctx = offsetsFrom features 0 ∧
  _totalBases ctx = totalLength features ∧
  _featuresForChr ctx = groupBy (λ f, chr (FeatureOps.getLocus f)) features ∧
  NoDup (handle <$> features) ∧
  (∀ (i : nat) f, features !! i = Some f →
     _startCoordinateForFeature ctx !! handle f = offsetsFrom features 0 !! i).
Proof.
  unfold NavContext.construct. intros H.
  destruct (NavContext.build features ∅ [] 0) as [[[m starts] total]|e] eqn:Hb;
    simpl in H; [|done].
  simplify_eq. apply build_inv in Hb as (-> & -> & Hnd & _ & _ & Hget).
  simpl. split_and!; auto.
Qed.

Lemma totalLength_offsets_nonempty features :
  totalLength features ≠ 0 → offsetsFrom features 0 !! 0%nat = Some 0.
Proof. destruct features; simpl; [lia|done]. Qed.

(** ** C1: base → feature coordinate → base *)

(** C1.  In every successfully constructed context and for every valid
    context coordinate [b] (0 ≤ b < getTotalBases()), converting [b] to a
    feature coordinate succeeds, converting that zero-length segment back
    to context coordinates succeeds, and the interval obtained starts, and
    ends, at [b]. *)
Theorem convertBase_roundtrip (name : string) (features : list Feature)
    (ctx : NavigationContext) (b : Z) :
  NavContext.construct name features = Ok ctx →
  0 ≤ b < NavContext.getTotalBases ctx →
  ∃ seg iv,
    NavContext.convertBaseToFeatureCoordinate ctx b = Ok seg ∧
    NavContext.convertFeatureSegmentToContextCoordinates ctx seg = Ok iv ∧
    start iv = b ∧ end_ iv = b.
Proof.
  intros Hc Hb.
  apply construct_inv in Hc as (Hfs & Hst & Htot & _ & Hnd & Hget).
  unfold NavContext.getTotalBases in Hb.
  unfold NavContext.convertBaseToFeatureCoordinate, NavContext.getIsValidBase.
  replace ((0 <=? b) && (b <? _totalBases ctx)) with true
    by (symmetry; apply andb_true_iff; split; [apply Z.leb_le|apply Z.ltb_lt]; lia).
  simpl negb. cbv iota.
  rewrite Hst, Hfs.
  assert (offsetsFrom features 0 !! 0%nat = Some 0) as H0.
  { apply totalLength_offsets_nonempty. lia. }
  assert (0 < length features)%nat as Hn.
  { apply lookup_lt_Some in H0. by rewrite length_offsetsFrom in H0. }
  unfold sortedLastIndex. rewrite length_offsetsFrom.
  pose proof (baseSortedIndex_bounds (offsetsFrom features 0) b 0 (length features)
                ltac:(lia)) as Hbd.
  pose proof (baseSortedIndex_pos (offsetsFrom features 0) b 0 (length features) 0
                H0 ltac:(lia) ltac:(lia) Hn) as Hpos.
  set (r := baseSortedIndex (offsetsFrom features 0) b 0 (length features)) in *.
  destruct (Z.ltb_spec (Z.of_nat r - 1) 0) as [?|_]; [lia|].
  replace (Z.to_nat (Z.of_nat r - 1)) with (r - 1)%nat by lia.
  destruct (lookup_lt_is_Some_2 features (r - 1)%nat ltac:(lia)) as [f Hf].
  destruct (offsetsFrom_lookup_lt features 0 (r - 1)%nat ltac:(lia)) as [s Hs].
  rewrite Hf, Hs.
  eexists _, _. split; [reflexivity|].
  unfold NavContext.convertFeatureSegmentToContextCoordinates,
    NavContext.getFeatureStart. simpl.
  rewrite (Hget _ _ Hf), Hs. simpl.
  split; [reflexivity|]. simpl. lia.
Qed.

Lemma convertBase_roundtrip_witness :
  ∃ ctx, NavContext.construct "ctx" exampleFeatures = Ok ctx ∧
  ∃ seg iv,
    NavContext.convertBaseToFeatureCoordinate ctx 15 = Ok seg ∧
    NavContext.convertFeatureSegmentToContextCoordinates ctx seg = Ok iv ∧
    start iv = 15 ∧ end_ iv = 15.
Proof.
  eexists. split; [reflexivity|].
  eapply (convertBase_roundtrip "ctx" exampleFeatures _ 15); [reflexivity|].
  change (0 ≤ 15 < 30). lia.
Defined.

(** ** C2: what the constructor rejects *)

Lemma build_throws_Error features : ∀ m starts total e,
  NavContext.build features m starts total = Throw e → e = Error.
Proof.
  induction features as [|f rest IH]; intros m starts total e H; simpl in H.
  - done.
  - destruct (decide (is_Some (m !! handle f))); [by simplify_eq|eauto].
Qed.

Lemma build_ok features : ∀ m starts total,
  NoDup (handle <$> features) →
  (∀ f, f ∈ features → m !! handle f = None) →
  ∃ r, NavContext.build features m starts total = Ok r.
Proof.
  induction features as [|f rest IH]; intros m starts total Hnd Hfresh; simpl.
  - eauto.
  - destruct (decide (is_Some (m !! handle f))) as [[x Hx]|_].
    { rewrite Hfresh in Hx; [done|]. apply elem_of_cons; auto. }
    simpl in Hnd. apply NoDup_cons in Hnd as [Hnotin Hnd].
    apply IH; [done|].
    intros g Hg. rewrite lookup_insert_ne.
    + apply Hfresh. apply elem_of_cons; auto.
    + intros Heq. apply Hnotin. rewrite Heq. apply list_elem_of_fmap; eauto.
Qed.

(** Construction succeeds exactly when no feature object occurs twice. *)
Lemma construct_ok_iff name features :
  (∃ ctx, NavContext.construct name features = Ok ctx) ↔ NoDup (handle <$> features).
Proof.
  split.
  - intros [ctx H]. by apply construct_inv in H as (_ & _ & _ & _ & Hnd & _).
  - intros Hnd. unfold NavContext.construct.
    destruct (build_ok features ∅ [] 0 Hnd) as [[[m starts] total] ->]; [|simpl; eauto].
    intros f _. apply lookup_empty.
Qed.

(** It throws [Error], and nothing else, when an object is repeated. *)
Lemma construct_repeated_object name features :
  ¬ NoDup (handle <$> features) → NavContext.construct name features = Throw Error.
Proof.
  intros Hdup. unfold NavContext.construct.
  destruct (NavContext.build features ∅ [] 0) as [[[m starts] total]|e] eqn:Hb; simpl.
  - exfalso. apply Hdup. by apply build_inv in Hb as (_ & _ & Hnd & _).
  - by apply build_throws_Error in Hb as ->.
Qed.

(** Features with pairwise distinct names are distinct objects, so they
    are accepted. *)
Lemma construct_unique_names_ok ctxName features :
  coherent features →
  NoDup (name <$> features) →
  ∃ ctx, NavContext.construct ctxName features = Ok ctx.
Proof.
  intros Hco Hnd. apply construct_ok_iff.
  induction features as [|f rest IH]; simpl in *; [constructor|].
  apply NoDup_cons in Hnd as [Hnotin Hnd]. constructor.
  - intros (g & Hfg & Hg)%list_elem_of_fmap.
    apply Hnotin. apply list_elem_of_fmap. exists g. split; [|done].
    f_equal. apply Hco; [left|by right|done].
  - apply IH; [|done]. intros a b Ha Hb. apply Hco; by right.
Qed.

(** A repeated object is, in particular, a repeated name: then the
    constructor does throw. *)
Lemma construct_repeated_object_throws name features (i j : nat) f :
  i ≠ j → features !! i = Some f → features !! j = Some f →
  NavContext.construct name features = Throw Error.
Proof.
  intros Hij Hi Hj. apply construct_repeated_object. intros Hnd.
  apply Hij. eapply NoDup_lookup; [exact Hnd| |];
    rewrite list_lookup_fmap; [rewrite Hi|rewrite Hj]; reflexivity.
Qed.

(** C2.  The claim is that construction fails whenever two features of the
    list have the same name.  The constructor looks features up by object
    identity, not by name: on [sameNameFeatures], two distinct objects that
    are both named "f" (a non-empty name), construction succeeds and
    produces a context. *)
Theorem construct_accepts_same_name :
  ¬ NoDup (name <$> sameNameFeatures) ∧
  Forall (λ f, name f ≠ EmptyString) sameNameFeatures ∧
  ∃ ctx, NavContext.construct "ctx" sameNameFeatures = Ok ctx ∧
         _features ctx = sameNameFeatures ∧
         _sortedFeatureStarts ctx = [0; 10] ∧
         NavContext.getTotalBases ctx = 20.
Proof.
  split; [|split].
  - intros Hnd. apply NoDup_cons in Hnd as [Hnotin _].
    apply Hnotin. simpl. left.
  - repeat constructor; simpl; discriminate.
  - eexists. split; [reflexivity|]. vm_compute. done.
Qed.

(** ** Offsets are prefix sums *)

Lemma totalLength_app l1 l2 :
  totalLength (l1 ++ l2) = totalLength l1 + totalLength l2.
Proof. induction l1; simpl; lia. Qed.

(** Offset law: the recorded start of the [i]-th feature is the sum of the
    lengths of the features before it. *)
Lemma offsetsFrom_lookup features : ∀ total (i : nat),
  (i < length features)%nat →
  offsetsFrom features total !! i = Some (total + totalLength (take i features)).
Proof.
  induction features as [|f rest IH]; intros total i Hi; simpl in *; [lia|].
  destruct i as [|i]; simpl.
  - f_equal. lia.
  - rewrite IH by lia. f_equal. lia.
Qed.

Lemma totalLength_take_S features (i : nat) f :
  features !! i = Some f →
  totalLength (take (S i) features) = totalLength (take i features) + FeatureOps.getLength f.
Proof.
  intros Hf. rewrite (take_S_r _ _ _ Hf), totalLength_app. simpl. lia.
Qed.

Lemma totalLength_nonneg features :
  Forall wfFeature features → 0 ≤ totalLength features.
Proof. induction 1; simpl; unfold wfFeature in *; lia. Qed.

Lemma totalLength_take_mono features (i j : nat) :
  Forall wfFeature features → (i ≤ j)%nat →
  totalLength (take i features) ≤ totalLength (take j features).
Proof.
  intros Hwf Hij.
  assert (∃ k, j = (i + k)%nat) as [k ->] by (exists (j - i)%nat; lia).
  rewrite <- take_take_drop, totalLength_app.
  assert (Forall wfFeature (take k (drop i features))) as Hk.
  { apply Forall_take, Forall_drop, Hwf. }
  apply totalLength_nonneg in Hk. lia.
Qed.

Lemma offsetsFrom_sorted features total :
  Forall wfFeature features → sortedArray (offsetsFrom features total).
Proof.
  intros Hwf i j a b Hij Ha Hb.
  pose proof (lookup_lt_Some _ _ _ Ha) as Hi.
  pose proof (lookup_lt_Some _ _ _ Hb) as Hj.
  rewrite length_offsetsFrom in Hi, Hj.
  rewrite offsetsFrom_lookup in Ha, Hb by done. simplify_eq.
  pose proof (totalLength_take_mono features i j Hwf Hij). lia.
Qed.

(** The feature that owns a valid base: the binary search lands on the
    feature whose context span contains it. *)
Lemma owner_of_base features (b : Z) :
  Forall wfFeature features →
  0 ≤ b < totalLength features →
  let r := sortedLastIndex (offsetsFrom features 0) b in
  ∃ f,
    (0 < r)%nat ∧ features !! (r - 1)%nat = Some f ∧
    totalLength (take (r - 1) features) ≤ b <
      totalLength (take (r - 1) features) + FeatureOps.getLength f.
Proof.
  intros Hwf Hb r.
  assert (offsetsFrom features 0 !! 0%nat = Some 0) as H0.
  { apply totalLength_offsets_nonempty. lia. }
  assert (0 < length features)%nat as Hn.
  { apply lookup_lt_Some in H0. by rewrite length_offsetsFrom in H0. }
  subst r. unfold sortedLastIndex. rewrite length_offsetsFrom.
  set (r := baseSortedIndex (offsetsFrom features 0) b 0 (length features)).
  pose proof (baseSortedIndex_bounds (offsetsFrom features 0) b 0 (length features)
                ltac:(lia)) as Hbd.
  pose proof (baseSortedIndex_pos (offsetsFrom features 0) b 0 (length features) 0
                H0 ltac:(lia) ltac:(lia) Hn) as Hpos.
  destruct (baseSortedIndex_split (offsetsFrom features 0) b 0 (length features))
    as [Hle Hgt].
  { by apply offsetsFrom_sorted. }
  { rewrite length_offsetsFrom. lia. }
  { intros; lia. }
  { intros i a Hi Ha. apply lookup_lt_Some in Ha. rewrite length_offsetsFrom in Ha. lia. }
  fold r in Hbd, Hpos, Hle, Hgt.
  destruct (lookup_lt_is_Some_2 features (r - 1)%nat ltac:(lia)) as [f Hf].
  exists f. split; [done|]. split; [done|]. split.
  - specialize (Hle (r - 1)%nat _ ltac:(lia)
                  (offsetsFrom_lookup features 0 (r - 1) ltac:(lia))). lia.
  - rewrite <- (totalLength_take_S _ _ _ Hf).
    replace (S (r - 1)) with r by lia.
    destruct (decide (r < length features)%nat) as [Hlt|Hge].
    + specialize (Hgt r _ ltac:(lia) (offsetsFrom_lookup features 0 r Hlt)). lia.
    + rewrite take_ge by lia. lia.
Qed.

(** ** C7: gapless coordinates *)

Lemma sumBy_totalLength features :
  sumBy features FeatureOps.getLength = totalLength features.
Proof.
  unfold sumBy.
  assert (∀ acc, foldl (λ a x, a + FeatureOps.getLength x) acc features
                 = acc + totalLength features) as H.
  { induction features as [|f rest IH]; intros acc; simpl; [lia|].
    rewrite IH. lia. }
  rewrite H. lia.
Qed.

Lemma findIndexFrom_handle features : ∀ (k : Z) (i : nat) f,
  NoDup (handle <$> features) → features !! i = Some f →
  findIndexFrom (λ g, bool_decide (handle g = handle f)) features k = k + Z.of_nat i.
Proof.
  induction features as [|g rest IH]; intros k i f Hnd Hf; [done|].
  simpl in Hnd. apply NoDup_cons in Hnd as [Hnotin Hnd]. simpl.
  destruct i as [|i]; simpl in Hf.
  - simplify_eq. rewrite bool_decide_eq_true_2 by done. lia.
  - rewrite bool_decide_eq_false_2.
    + rewrite (IH (k + 1) i f Hnd Hf). lia.
    + intros Heq. apply Hnotin. rewrite Heq. apply list_elem_of_fmap.
      exists f. split; [done|]. by eapply list_elem_of_lookup_2.
Qed.

(** What [toGaplessCoordinate] computes on a valid base. *)
Lemma toGaplessCoordinate_general ctxName features ctx (b : Z) :
  NavContext.construct ctxName features = Ok ctx →
  Forall wfFeature features →
  0 ≤ b < NavContext.getTotalBases ctx →
  ∃ (i : nat) f,
    features !! i = Some f ∧
    totalLength (take i features) ≤ b <
      totalLength (take i features) + FeatureOps.getLength f ∧
    NavContext.toGaplessCoordinate ctx b =
      Ok (b - (gapLengthBefore features i +
               if NavContext.isGapFeature f
               then b - totalLength (take i features) else 0)).
Proof.
  intros Hc Hwf Hb.
  apply construct_inv in Hc as (Hfs & Hst & Htot & _ & Hnd & Hget).
  unfold NavContext.getTotalBases in Hb. rewrite Htot in Hb.
  destruct (owner_of_base features b Hwf Hb) as (f & Hpos & Hf & Hin).
  set (r := sortedLastIndex (offsetsFrom features 0) b) in *.
  exists (r - 1)%nat, f. split; [done|]. split; [done|].
  unfold NavContext.toGaplessCoordinate, NavContext.convertBaseToFeatureCoordinate,
    NavContext.getIsValidBase.
  rewrite Htot.
  replace ((0 <=? b) && (b <? totalLength features)) with true
    by (symmetry; apply andb_true_iff; split; [apply Z.leb_le|apply Z.ltb_lt]; lia).
  simpl negb. cbv iota. rewrite Hst, Hfs. fold r.
  destruct (Z.ltb_spec (Z.of_nat r - 1) 0) as [?|_]; [lia|].
  replace (Z.to_nat (Z.of_nat r - 1)) with (r - 1)%nat by lia.
  rewrite Hf, (offsetsFrom_lookup features 0 (r - 1)) by (apply lookup_lt_Some in Hf; lia).
  simpl. unfold findIndex.
  rewrite (findIndexFrom_handle features 0 (r - 1) f Hnd Hf).
  unfold slice0.
  destruct (Z.ltb_spec (0 + Z.of_nat (r - 1)) 0) as [?|_]; [lia|].
  replace (Z.to_nat (0 + Z.of_nat (r - 1))) with (r - 1)%nat by lia.
  rewrite sumBy_totalLength. unfold gapLengthBefore.
  destruct (NavContext.isGapFeature f); do 2 f_equal; lia.
Qed.

(** C7.  For every context built from a 10bp ordinary feature, a 10bp gap
    and a 10bp ordinary feature, [toGaplessCoordinate] maps 5 to 5, 15 to 10
    and 25 to 15.  In general, on a valid base it subtracts the total length
    of the gap features that precede the owning feature, plus the offset of
    the base inside the owning feature when that feature is itself a gap. *)
Theorem toGaplessCoordinate_spec :
  (∀ ctxName f1 g f2 ctx,
     NavContext.isGapFeature f1 = false →
     NavContext.isGapFeature g = true →
     NavContext.isGapFeature f2 = false →
     FeatureOps.getLength f1 = 10 →
     FeatureOps.getLength g = 10 →
     FeatureOps.getLength f2 = 10 →
     NavContext.construct ctxName [f1; g; f2] = Ok ctx →
     NavContext.toGaplessCoordinate ctx 5 = Ok 5 ∧
     NavContext.toGaplessCoordinate ctx 15 = Ok 10 ∧
     NavContext.toGaplessCoordinate ctx 25 = Ok 15) ∧
  (∀ ctxName features ctx (b : Z),
     NavContext.construct ctxName features = Ok ctx →
     Forall wfFeature features →
     0 ≤ b < NavContext.getTotalBases ctx →
     ∃ (i : nat) f,
       features !! i = Some f ∧
       totalLength (take i features) ≤ b <
         totalLength (take i features) + FeatureOps.getLength f ∧
       NavContext.toGaplessCoordinate ctx b =
         Ok (b - (gapLengthBefore features i +
                  if NavContext.isGapFeature f
                  then b - totalLength (take i features) else 0))).
Proof.
  split; [|apply toGaplessCoordinate_general].
  intros ctxName f1 g f2 ctx Hf1 Hg Hf2 L1 Lg L2 Hc.
  assert (Forall wfFeature [f1; g; f2]) as Hwf.
  { repeat constructor; unfold wfFeature; lia. }
  assert (NavContext.getTotalBases ctx = 30) as Htot.
  { unfold NavContext.getTotalBases.
    apply construct_inv in Hc as (_ & _ & -> & _). simpl. lia. }
  assert (∀ b r, 0 ≤ b < 30 →
            (∀ (i : nat) f, [f1; g; f2] !! i = Some f →
               totalLength (take i [f1; g; f2]) ≤ b <
                 totalLength (take i [f1; g; f2]) + FeatureOps.getLength f →
               b - (gapLengthBefore [f1; g; f2] i +
                    (if NavContext.isGapFeature f
                     then b - totalLength (take i [f1; g; f2]) else 0)) = r) →
            NavContext.toGaplessCoordinate ctx b = Ok r) as Hcase.
  { intros b r Hb Hr.
    destruct (toGaplessCoordinate_general ctxName _ ctx b Hc Hwf ltac:(lia))
      as (i & f & Hf & Hin & ->).
    f_equal. by apply Hr. }
  split_and!; apply Hcase; try lia;
    intros [|[|[|i]]] f Hf Hin; simpl in Hf; simplify_eq;
    unfold gapLengthBefore in *; simpl in *;
    rewrite ?filter_cons, ?filter_nil in *; simpl in *;
    repeat case_decide; simpl in *; try congruence;
    rewrite ?Hf1, ?Hg, ?Hf2; lia.
Qed.

Lemma toGaplessCoordinate_spec_witness :
  ∃ ctx, NavContext.construct "ctx" exampleFeatures = Ok ctx ∧
    NavContext.toGaplessCoordinate ctx 5 = Ok 5 ∧
    NavContext.toGaplessCoordinate ctx 15 = Ok 10 ∧
    NavContext.toGaplessCoordinate ctx 25 = Ok 15.
Proof.
  eexists. split; [reflexivity|].
  apply (proj1 toGaplessCoordinate_spec "ctx"
           (mkFeature 1 "f1" (mkChromosomeInterval "chr1" (mkOpenInterval 0 10)))
           (NavContext.makeGap 2 10 "Gap")
           (mkFeature 3 "f2" (mkChromosomeInterval "chr1" (mkOpenInterval 20 30))));
    reflexivity.
Defined.

(** ** Genomic lookup on a constructed context *)

Lemma groupBy_lookup {A} (key : A → string) (l : list A) (k : string) :
  default [] (groupBy key l !! k) = filter (λ x, key x = k) l.
Proof.
  unfold groupBy.
  assert (∀ acc : gmap string (list A),
            default [] (foldl (λ acc x, <[key x := default [] (acc !! key x) ++ [x]]> acc)
                              acc l !! k)
            = default [] (acc !! k) ++ filter (λ x, key x = k) l) as H.
  { induction l as [|x l IH]; intros acc; simpl.
    - by rewrite filter_nil, app_nil_r.
    - rewrite IH, filter_cons. case_decide as Hk.
      + subst k. rewrite lookup_insert_eq. simpl. by rewrite <- app_assoc.
      + by rewrite lookup_insert_ne. }
  rewrite H, lookup_empty. done.
Qed.

Lemma genomeIntervalLoop_ok ctx chrInterval potentialOverlaps :
  ∀ contextIntervals,
  (∀ f, f ∈ potentialOverlaps → is_Some (_startCoordinateForFeature ctx !! handle f)) →
  ∃ ivs, NavContext.genomeIntervalLoop ctx potentialOverlaps chrInterval contextIntervals
         = Ok ivs.
Proof.
  induction potentialOverlaps as [|f rest IH]; intros acc Hin; simpl; [eauto|].
  assert (∀ g, g ∈ rest → is_Some (_startCoordinateForFeature ctx !! handle g)) as Hrest.
  { intros g Hg. apply Hin. by right. }
  destruct (FeatureSegmentOps.getGenomeOverlap _ _) as [overlap|] eqn:Hov; [|by apply IH].
  assert (feature overlap = f) as Hfeat.
  { unfold FeatureSegmentOps.getGenomeOverlap in Hov.
    destruct (ChromosomeIntervalOps.getOverlap _ _); by simplify_eq. }
  unfold NavContext.convertFeatureSegmentToContextCoordinates, NavContext.getFeatureStart.
  rewrite Hfeat. destruct (Hin f ltac:(left)) as [s ->]. simpl. by apply IH.
Qed.

Ltac solve_not_elem :=
  let H := fresh "H" in
  intros H; repeat (apply elem_of_cons in H as [H|H]; [discriminate H|]);
  by apply elem_of_nil in H.

Lemma groupBy_lookup_own {A} (key : A → string) (l : list A) (k : string) :
  groupBy key l !! k =
  match filter (λ x, key x = k) l with
  | [] => None
  | group => Some group
  end.
Proof.
  unfold groupBy.
  assert (∀ acc : gmap string (list A),
            foldl (λ acc x, <[key x := default [] (acc !! key x) ++ [x]]> acc) acc l !! k
            = match acc !! k, filter (λ x, key x = k) l with
              | None, [] => None
              | o, group => Some (default [] o ++ group)
              end) as H.
  { induction l as [|x l IH]; intros acc; simpl.
    - rewrite filter_nil. destruct (acc !! k); simpl; [by rewrite app_nil_r|done].
    - rewrite IH, filter_cons. case_decide as Hk.
      + subst k. rewrite lookup_insert_eq. simpl.
        rewrite <- app_assoc. simpl. by destruct (acc !! key x).
      + by rewrite lookup_insert_ne. }
  rewrite H, lookup_empty. by destruct (filter _ l).
Qed.

(** What the read of [_featuresForChr] amounts to in a constructed
    context: the features on the chromosome when the name is plain, a
    TypeError otherwise. *)
Lemma convertGenomeIntervalToBases_read ctxName features ctx chrInterval :
  NavContext.construct ctxName features = Ok ctx →
  (plainChr features (chr chrInterval) →
     NavContext.convertGenomeIntervalToBases ctx chrInterval =
     NavContext.genomeIntervalLoop ctx
       (filter (λ f, chr (FeatureOps.getLocus f) = chr chrInterval) features)
       chrInterval []) ∧
  (¬ plainChr features (chr chrInterval) →
     NavContext.convertGenomeIntervalToBases ctx chrInterval = Throw TypeError).
Proof.
  intros Hc. apply construct_inv in Hc as (_ & _ & _ & Hgrp & _).
  unfold NavContext.convertGenomeIntervalToBases. rewrite Hgrp, groupBy_lookup_own.
  destruct (filter _ features) as [|g group] eqn:Hfilter.
  2:{ split; [done|]. intros Hnot. exfalso. apply Hnot. right. exists g.
      assert (g ∈ filter (λ f, chr (FeatureOps.getLocus f) = chr chrInterval) features)
        as Hg by (rewrite Hfilter; left).
      apply list_elem_of_filter in Hg as [Hchr Hg]. done. }
  case_decide as Hkey; split; try done.
  - intros [Hplain|(f & Hf & Hchr)]; [done|].
    assert (f ∈ filter (λ f, chr (FeatureOps.getLocus f) = chr chrInterval) features)
      as Hin by (by apply list_elem_of_filter).
    rewrite Hfilter in Hin. by apply elem_of_nil in Hin.
  - intros Hnot. exfalso. apply Hnot. by left.
Qed.

Lemma convertGenomeIntervalToBases_ok ctxName features ctx chrInterval :
  NavContext.construct ctxName features = Ok ctx →
  plainChr features (chr chrInterval) →
  ∃ ivs, NavContext.convertGenomeIntervalToBases ctx chrInterval = Ok ivs.
Proof.
  intros Hc Hplain.
  rewrite (proj1 (convertGenomeIntervalToBases_read _ _ _ chrInterval Hc) Hplain).
  apply construct_inv in Hc as (Hfs & Hst & Htot & Hgrp & Hnd & Hget).
  apply genomeIntervalLoop_ok.
  intros f [_ Hf]%list_elem_of_filter.
  apply list_elem_of_lookup in Hf as [i Hi].
  rewrite (Hget i f Hi). apply offsetsFrom_lookup_lt. by eapply lookup_lt_Some.
Qed.

(** ** C6: parse *)

Lemma find_first {A} (p : A → bool) (l : list A) (i : nat) (x : A) :
  l !! i = Some x → p x = true →
  (∀ (j : nat) y, (j < i)%nat → l !! j = Some y → p y = false) →
  List.find p l = Some x.
Proof.
  revert i. induction l as [|y l IH]; intros i Hi Hp Hbefore; [done|].
  destruct i as [|i]; simpl in *.
  - simplify_eq. by rewrite Hp.
  - rewrite (Hbefore 0%nat y) by (done || lia).
    apply (IH i); auto. intros j z Hj Hz. apply (Hbefore (S j)); [lia|done].
Qed.

Lemma find_none {A} (p : A → bool) (l : list A) :
  (∀ x, x ∈ l → p x = false) → List.find p l = None.
Proof.
  induction l as [|y l IH]; intros H; simpl; [done|].
  rewrite H by left. apply IH. intros x Hx. apply H. by right.
Qed.

(** What [parse] does in a constructed context.  When the string contains
    a match of the locus pattern (the test [parse] makes) and is read as
    the locus [l]: with a plain chromosome name it returns the first context
    interval of the genomic lookup of [l], and throws a RangeError when
    that lookup yields none; with the name of an inherited property that is
    no chromosome of the context it throws a TypeError.  On a string
    without such a match it returns the full context span of the first
    feature whose name is exactly the string, and throws a RangeError when
    no feature has that name. *)
Lemma parse_spec (ChromosomeInterval_parse : string → result ChromosomeInterval)
    (ctxName : string) (features : list Feature) (ctx : NavigationContext)
    (str : string) :
  NavContext.construct ctxName features = Ok ctx →
  (intervalMatch str = true →
     ∀ l, ChromosomeInterval_parse str = Ok l →
       (plainChr features (chr l) →
          ∃ ivs, NavContext.convertGenomeIntervalToBases ctx l = Ok ivs ∧
            NavContext.parse ctx ChromosomeInterval_parse str =
              match ivs with
              | iv :: _ => Ok iv
              | [] => Throw RangeError
              end) ∧
       (¬ plainChr features (chr l) →
          NavContext.parse ctx ChromosomeInterval_parse str = Throw TypeError)) ∧
  (intervalMatch str = false →
     (∀ (i : nat) f,
        features !! i = Some f → name f = str →
        (∀ (j : nat) g, (j < i)%nat → features !! j = Some g → name g ≠ str) →
        NavContext.parse ctx ChromosomeInterval_parse str =
          Ok (mkOpenInterval (totalLength (take i features))
                (totalLength (take i features) + FeatureOps.getLength f))) ∧
     ((∀ f, f ∈ features → name f ≠ str) →
        NavContext.parse ctx ChromosomeInterval_parse str = Throw RangeError)).
Proof.
  intros Hc. split.
  - intros Hm l Hl. split.
    + intros Hplain.
      destruct (convertGenomeIntervalToBases_ok _ _ _ l Hc Hplain) as [ivs Hivs].
      exists ivs. split; [done|].
      unfold NavContext.parse. rewrite Hm, Hl. simpl. rewrite Hivs. simpl.
      by destruct ivs.
    + intros Hnot. unfold NavContext.parse. rewrite Hm, Hl. simpl.
      by rewrite (proj2 (convertGenomeIntervalToBases_read _ _ _ l Hc) Hnot).
  - intros Hm.
    apply construct_inv in Hc as (Hfs & Hst & Htot & Hgrp & Hnd & Hget).
    unfold NavContext.parse. rewrite Hm, Hfs. split.
    + intros i f Hf Hname Hfirst.
      rewrite (find_first _ features i f Hf).
      * unfold NavContext.convertFeatureSegmentToContextCoordinates,
          NavContext.getFeatureStart. simpl.
        rewrite (Hget i f Hf), offsetsFrom_lookup by (by eapply lookup_lt_Some).
        simpl. do 2 f_equal; lia.
      * by apply bool_decide_eq_true_2.
      * intros j g Hj Hg. apply bool_decide_eq_false_2. by eapply Hfirst.
    + intros Hnone. rewrite find_none; [done|].
      intros f Hf. apply bool_decide_eq_false_2. by apply Hnone.
Qed.

Lemma parse_spec_examples :
  ∃ ctx, NavContext.construct "ctx" exampleFeatures = Ok ctx ∧
    NavContext.parse ctx exampleLocusParser "chr1:5-25" = Ok (mkOpenInterval 5 10) ∧
    NavContext.parse ctx exampleLocusParser "chr9:0-5" = Throw RangeError ∧
    NavContext.parse ctx exampleLocusParser "f2" = Ok (mkOpenInterval 20 30) ∧
    NavContext.parse ctx exampleLocusParser "NoSuchFeature" = Throw RangeError.
Proof.
  assert (∀ c : string, c ∉ objectPrototypeKeys → plainChr exampleFeatures c) as Hplain
    by (intros c Hc; by left).
  eexists. split; [reflexivity|]. split_and!.
  - destruct (proj1 (proj1 (parse_spec exampleLocusParser "ctx" exampleFeatures _
                              "chr1:5-25" eq_refl) eq_refl _ eq_refl))
      as (ivs & Hivs & ->).
    { apply Hplain. solve_not_elem. }
    vm_compute in Hivs. by simplify_eq.
  - destruct (proj1 (proj1 (parse_spec exampleLocusParser "ctx" exampleFeatures _
                              "chr9:0-5" eq_refl) eq_refl _ eq_refl))
      as (ivs & Hivs & ->).
    { apply Hplain. solve_not_elem. }
    vm_compute in Hivs. by simplify_eq.
  - rewrite (proj1 (proj2 (parse_spec exampleLocusParser "ctx" exampleFeatures _ "f2"
                             eq_refl) eq_refl) 2%nat _ eq_refl eq_refl); [done|].
    intros [|[|j]] g Hj Hg; simpl in Hg; simplify_eq; [done..|lia].
  - apply (proj2 (proj2 (parse_spec exampleLocusParser "ctx" exampleFeatures _
                           "NoSuchFeature" eq_refl) eq_refl)).
    intros f Hf. unfold exampleFeatures in Hf.
    repeat (apply elem_of_cons in Hf as [->|Hf]; [done|]).
    by apply elem_of_nil in Hf.
Qed.

(** A feature whose name contains a locus is not found by its name: the
    string passes the pattern test, so it is read as a locus. *)
Lemma parse_locus_like_name :
  ∃ ctx f,
    NavContext.construct "ctx" locusLikeNameFeatures = Ok ctx ∧
    locusLikeNameFeatures !! 0%nat = Some f ∧
    name f = "enhancer near chr1:100-200 (hg19)" ∧
    NavContext.convertFeatureSegmentToContextCoordinates ctx (FeatureSegmentOps.whole f)
      = Ok (mkOpenInterval 0 10) ∧
    intervalMatch (name f) = true ∧
    NavContext.parse ctx embeddedLocusParser (name f) = Throw RangeError.
Proof. eexists _, _. split_and!; reflexivity. Qed.

(** C6.  The claim is that [parse], on a string of the form
    "chr:start-end", returns the first context interval of the genomic
    lookup and raises a RangeError when there is none.  On
    "constructor:1-2", read as the locus constructor:1-2, in a context
    without such a chromosome, the lookup finds an inherited property of
    the object of grouped features instead of a missing one, and [parse]
    raises a TypeError. *)
Theorem parse_inherited_chromosome
    (ChromosomeInterval_parse : string → result ChromosomeInterval) :
  ChromosomeInterval_parse "constructor:1-2"
    = Ok (mkChromosomeInterval "constructor" (mkOpenInterval 1 2)) →
  intervalMatch "constructor:1-2" = true ∧
  (∀ f, f ∈ exampleFeatures → chr (locus f) ≠ "constructor") ∧
  NavContext.convertGenomeIntervalToBases exampleContext
    (mkChromosomeInterval "constructor" (mkOpenInterval 1 2)) = Throw TypeError ∧
  NavContext.parse exampleContext ChromosomeInterval_parse "constructor:1-2"
    = Throw TypeError.
Proof.
  intros Hparse. split_and!.
  - reflexivity.
  - intros f Hf. unfold exampleFeatures in Hf.
    repeat (apply elem_of_cons in Hf as [->|Hf]; [done|]).
    by apply elem_of_nil in Hf.
  - reflexivity.
  - unfold NavContext.parse.
    replace (intervalMatch "constructor:1-2") with true by reflexivity.
    rewrite Hparse. reflexivity.
Qed.

Lemma parse_inherited_chromosome_witness :
  NavContext.parse exampleContext inheritedNameParser "constructor:1-2"
  = Throw TypeError.
Proof.
  apply (parse_inherited_chromosome inheritedNameParser). reflexivity.
Defined.

(** ** C8: placed interactions *)

Lemma leb_total (a b : num) :
  Num.isNaN a = false → Num.isNaN b = false →
  Num.leb a b = false → Num.leb b a = true.
Proof.
  destruct a as [x| | |], b as [y| | |]; simpl; try done.
  intros _ _. rewrite <- (Qcompare_antisym x y).
  by destruct (x ?= y)%Q.
Qed.

Lemma newPlacedInteraction_ordered it (a b : XSpan) :
  Num.isNaN (xstart a) = false → Num.isNaN (xstart b) = false →
  orderedSpans (newPlacedInteraction it a b).
Proof.
  intros Ha Hb. unfold orderedSpans, newPlacedInteraction.
  destruct (Num.leb (xstart a) (xstart b)) eqn:E; simpl; [done|].
  by apply leb_total.
Qed.

Lemma newPlacedInteraction_interaction it a b :
  interaction (newPlacedInteraction it a b) = it.
Proof. unfold newPlacedInteraction. by destruct (Num.leb _ _). Qed.

(** The inner loops append, for each surviving pair, one placed
    interaction. *)
Lemma pairLoop_spec dm it (clip : OpenInterval → option OpenInterval)
    (locations1 locations2 : list OpenInterval) (acc : list PlacedInteraction) :
  FeaturePlacer.pairLoop dm it (map clip locations1) (map clip locations2) acc =
  acc ++ map (λ p, newPlacedInteraction it (baseSpanToXSpan dm p.1) (baseSpanToXSpan dm p.2))
             (list_prod (omap clip locations1) (omap clip locations2)).
Proof.
  unfold FeaturePlacer.pairLoop.
  revert acc. induction locations1 as [|l1 rest1 IH1]; intros acc; simpl.
  - by rewrite app_nil_r.
  - rewrite IH1. destruct (clip l1) as [c1|]; simpl.
    + rewrite map_app, map_map, app_assoc. f_equal. simpl.
      clear IH1. revert acc.
      induction locations2 as [|l2 rest2 IH2]; intros acc; simpl.
      * by rewrite app_nil_r.
      * rewrite IH2. destruct (clip l2); simpl; [|done].
        by rewrite <- app_assoc.
    + f_equal. clear IH1. revert acc.
      induction locations2 as [|l2 rest2 IH2]; intros acc; simpl; [done|].
      apply IH2.
Qed.

Lemma interactionsLoop_spec dm viewRegion ctxName features interactions :
  NavContext.construct ctxName features = Ok (getNavigationContext viewRegion) →
  (∀ it, it ∈ interactions →
     plainChr features (chr (locus1 it)) ∧ plainChr features (chr (locus2 it))) →
  ∀ acc,
  FeaturePlacer.interactionsLoop dm (getContextCoordinates viewRegion)
    (getNavigationContext viewRegion) interactions acc
  = Ok (acc ++ (interactions ≫= placedPairs dm viewRegion)).
Proof.
  intros Hc. induction interactions as [|it rest IH]; intros Hplain acc; simpl.
  - by rewrite app_nil_r.
  - unfold placedPairs at 1, clippedLocations.
    destruct (Hplain it ltac:(left)) as [Hp1 Hp2].
    destruct (convertGenomeIntervalToBases_ok _ _ _ (locus1 it) Hc Hp1) as [ivs1 ->].
    destruct (convertGenomeIntervalToBases_ok _ _ _ (locus2 it) Hc Hp2) as [ivs2 ->].
    simpl. rewrite IH, pairLoop_spec, <- app_assoc; [done|].
    intros it' Hit'. apply Hplain. by right.
Qed.

Lemma newPlacedInteraction_placesPair dm it (l1 l2 : OpenInterval) :
  placesPair dm
    (newPlacedInteraction it (baseSpanToXSpan dm l1) (baseSpanToXSpan dm l2))
    (it, (l1, l2)).
Proof.
  unfold placesPair, newPlacedInteraction.
  destruct (Num.leb _ _); simpl; split; auto.
Qed.

Lemma placedPairs_placesPair dm viewRegion interactions :
  Forall2 (placesPair dm) (interactions ≫= placedPairs dm viewRegion)
          (survivingPairs viewRegion interactions).
Proof.
  unfold survivingPairs.
  induction interactions as [|it rest IH]; [constructor|].
  rewrite !bind_cons. apply Forall2_app; [|exact IH].
  unfold placedPairs. apply Forall2_fmap, Forall_Forall2_diag, Forall_forall.
  intros [l1 l2] _. apply newPlacedInteraction_placesPair.
Qed.

(** What [placeInteractions] returns when every locus has a plain
    chromosome name and the drawing model yields no NaN start coordinate:
    for each interaction in turn, one placed interaction per pair of
    surviving clipped context intervals of its two loci, carrying that
    interaction and the pixel spans of the two intervals, with
    [xSpan1.start <= xSpan2.start]. *)
Lemma placeInteractions_spec
    (newLinearDrawingModel : DisplayedRegionModel → num → LinearDrawingModel)
    (ctxName : string) (features : list Feature)
    (interactions : list GenomeInteraction)
    (viewRegion : DisplayedRegionModel) (width : num) :
  NavContext.construct ctxName features = Ok (getNavigationContext viewRegion) →
  (∀ it, it ∈ interactions →
     plainChr features (chr (locus1 it)) ∧ plainChr features (chr (locus2 it))) →
  (∀ iv, Num.isNaN (xstart (baseSpanToXSpan (newLinearDrawingModel viewRegion width) iv))
         = false) →
  ∃ placed,
    FeaturePlacer.placeInteractions newLinearDrawingModel interactions viewRegion width
      = Ok placed ∧
    Forall2 (placesPair (newLinearDrawingModel viewRegion width)) placed
            (survivingPairs viewRegion interactions) ∧
    length placed =
      sum_list_with (λ it, length (clippedLocations viewRegion (locus1 it)) *
                           length (clippedLocations viewRegion (locus2 it)))%nat
                    interactions ∧
    Forall orderedSpans placed.
Proof.
  intros Hc Hplain Hnan.
  exists (interactions ≫= placedPairs (newLinearDrawingModel viewRegion width) viewRegion).
  split; [|split; [|split]].
  - unfold FeaturePlacer.placeInteractions.
    by rewrite (interactionsLoop_spec _ _ _ _ _ Hc Hplain).
  - apply placedPairs_placesPair.
  - clear Hplain. induction interactions as [|it rest IH]; [done|].
    rewrite bind_cons, length_app, IH. simpl. f_equal.
    unfold placedPairs. by rewrite length_map, length_prod.
  - apply Forall_forall. intros p Hp.
    apply list_elem_of_bind in Hp as (it & Hp & _).
    unfold placedPairs in Hp. apply list_elem_of_fmap in Hp as (pair & -> & _).
    by apply newPlacedInteraction_ordered.
Qed.

Lemma placeInteractions_spec_example :
  ∃ placed,
    FeaturePlacer.placeInteractions (λ _ _, unitDrawingModel)
      [mkGenomeInteraction (mkChromosomeInterval "chr1" (mkOpenInterval 5 25))
                           (mkChromosomeInterval "chr1" (mkOpenInterval 0 10))]
      exampleView (Fin 30) = Ok placed ∧
    length placed = 2%nat ∧ Forall orderedSpans placed.
Proof.
  destruct (placeInteractions_spec (λ _ _, unitDrawingModel) "ctx" exampleFeatures
              [mkGenomeInteraction (mkChromosomeInterval "chr1" (mkOpenInterval 5 25))
                                   (mkChromosomeInterval "chr1" (mkOpenInterval 0 10))]
              exampleView (Fin 30) eq_refl)
    as (placed & Hp & _ & Hlen & Hord).
  - intros it ->%list_elem_of_singleton. split; left; simpl; solve_not_elem.
  - intros iv. reflexivity.
  - exists placed. split; [exact Hp|]. split; [|exact Hord].
    rewrite Hlen. reflexivity.
Qed.

(** C8.  The claim is that one PlacedInteraction is emitted for every pair
    of surviving clipped context intervals of an interaction's two loci.
    When a locus lies on a chromosome named "constructor" and the context
    has no such chromosome, the genomic lookup reads an inherited property
    of the object of grouped features and throws a TypeError, so
    [placeInteractions] emits nothing: the two surviving pairs of the first
    interaction, inside chr1, are lost with it. *)
Theorem placeInteractions_inherited_chromosome :
  clippedLocations exampleView (mkChromosomeInterval "chr1" (mkOpenInterval 5 25))
    = [mkOpenInterval 5 10; mkOpenInterval 20 25] ∧
  clippedLocations exampleView (mkChromosomeInterval "chr1" (mkOpenInterval 0 10))
    = [mkOpenInterval 0 10] ∧
  NavContext.convertGenomeIntervalToBases exampleContext
    (mkChromosomeInterval "constructor" (mkOpenInterval 0 1)) = Throw TypeError ∧
  FeaturePlacer.placeInteractions (λ _ _, unitDrawingModel)
    inheritedNameInteractions exampleView (Fin 30) = Throw TypeError.
Proof. split_and!; reflexivity. Qed.

(** ** C10: placing the segments of a placed feature *)

Lemma sgn_inject_Z_pos (z : Z) : 0 < z → Num.sgn (inject_Z z) = Gt.
Proof.
  intros Hz. unfold Num.sgn, Qcompare. simpl. rewrite Z.mul_1_r.
  by apply Z.compare_gt_iff.
Qed.

Lemma getOverlap_nonempty (i other o : OpenInterval) :
  OpenIntervalOps.getOverlap i other = Some o → start o < end_ o.
Proof.
  unfold OpenIntervalOps.getOverlap.
  destruct (Z.ltb_spec (Z.max (start i) (start other)) (Z.min (end_ i) (end_ other)));
    intros; simplify_eq; simpl; lia.
Qed.

Lemma segment_getOverlap_nonempty (s other v : FeatureSegment) :
  FeatureSegmentOps.getOverlap s other = Some v → 0 < FeatureSegmentOps.getLength v.
Proof.
  unfold FeatureSegmentOps.getOverlap. case_decide; [|done].
  destruct (OpenIntervalOps.getOverlap _ _) as [o|] eqn:Ho; [|done].
  intros; simplify_eq. apply getOverlap_nonempty in Ho.
  unfold FeatureSegmentOps.getLength. simpl. lia.
Qed.

(** With a zero divisor the pixels-per-base ratio is an infinity or NaN. *)
Lemma div_by_zero_not_finite (a : num) :
  Num.isFinite (Num.div a (Num.ofZ 0)) = false.
Proof.
  destruct a as [x| | |]; simpl; try done.
  unfold Num.sgn. by destruct (x ?= 0)%Q.
Qed.

Lemma placeFeatureSegments_fold (placedFeature : PlacedFeature) (x0 x1 : Q)
    (segments : list FeatureSegment) :
  0 < OpenIntervalOps.getLength (contextLocation placedFeature) →
  xSpan placedFeature = mkXSpan (Fin x0) (Fin x1) →
  FeaturePlacer.placeFeatureSegments placedFeature segments =
  omap (placedSegmentOf placedFeature x0
          ((x1 - x0) / inject_Z (OpenIntervalOps.getLength (contextLocation placedFeature))))
       segments.
Proof.
  intros Hlen Hx. unfold FeaturePlacer.placeFeatureSegments.
  rewrite Hx. unfold XSpanOps.getLength, Num.ofZ. simpl.
  rewrite (sgn_inject_Z_pos _ Hlen).
  set (ppb := (_ / _)%Q).
  assert (∀ acc,
    foldl (λ placements segment,
      match FeatureSegmentOps.getOverlap segment (visiblePart placedFeature) with
      | Some visibleSegment =>
          placements ++
          [mkPlacedSegment visibleSegment
             (mkXSpan
                (Num.add (Fin x0)
                   (Num.mul (Fin (inject_Z (relativeStart visibleSegment
                        - relativeStart (visiblePart placedFeature)))) (Fin ppb)))
                (Num.add
                   (Num.add (Fin x0)
                      (Num.mul (Fin (inject_Z (relativeStart visibleSegment
                           - relativeStart (visiblePart placedFeature)))) (Fin ppb)))
                   (Num.mul (Fin (inject_Z (FeatureSegmentOps.getLength visibleSegment)))
                      (Fin ppb))))]
      | None => placements
      end) acc segments
    = acc ++ omap (placedSegmentOf placedFeature x0 ppb) segments) as H.
  { induction segments as [|s rest IH]; intros acc; simpl.
    - by rewrite app_nil_r.
    - rewrite IH. unfold placedSegmentOf at 2.
      destruct (FeatureSegmentOps.getOverlap s (visiblePart placedFeature)); simpl; [|done].
      by rewrite <- app_assoc. }
  apply H.
Qed.

Lemma inject_Z_pos (z : Z) : 0 < z → (0 < inject_Z z)%Q.
Proof. intros Hz. unfold Qlt. simpl. lia. Qed.

Lemma inject_Z_nonneg (z : Z) : 0 ≤ z → (0 <= inject_Z z)%Q.
Proof. intros Hz. unfold Qle. simpl. lia. Qed.

Lemma pixelsPerBase_nonneg (x0 x1 : Q) (len : Z) :
  0 < len → (x0 <= x1)%Q → (0 <= (x1 - x0) / inject_Z len)%Q.
Proof.
  intros Hlen Hx.
  pose proof (inject_Z_pos len Hlen) as Hpos.
  apply Qle_shift_div_l; [exact Hpos|]. lra.
Qed.

(** C10.  For a placed feature whose context location has strictly
    positive length (and whose pixel span is finite and well-formed), the
    divisor of the pixels-per-base ratio is not zero and the ratio is the
    finite quotient; [placeFeatureSegments] returns, in order, one placement
    for each segment that overlaps the visible part and nothing for the
    others; every returned pixel span is finite with start <= end.  Without
    the precondition the ratio is not finite: dividing by a zero length
    gives an infinity or NaN. *)
Theorem placeFeatureSegments_total (placedFeature : PlacedFeature) (x0 x1 : Q)
    (segments : list FeatureSegment) :
  0 < OpenIntervalOps.getLength (contextLocation placedFeature) →
  xSpan placedFeature = mkXSpan (Fin x0) (Fin x1) →
  (x0 <= x1)%Q →
  let len := OpenIntervalOps.getLength (contextLocation placedFeature) in
  let pixelsPerBase := ((x1 - x0) / inject_Z len)%Q in
  ¬ (inject_Z len == 0)%Q ∧
  Num.div (XSpanOps.getLength (xSpan placedFeature)) (Num.ofZ len) = Fin pixelsPerBase ∧
  FeaturePlacer.placeFeatureSegments placedFeature segments =
    omap (placedSegmentOf placedFeature x0 pixelsPerBase) segments ∧
  Forall (λ placed, finiteSpan (segment_xSpan placed))
         (FeaturePlacer.placeFeatureSegments placedFeature segments) ∧
  (∀ a, Num.isFinite (Num.div a (Num.ofZ 0)) = false).
Proof.
  intros Hlen Hx Hle len ppb. split_and!.
  - intros Hz. pose proof (inject_Z_pos len Hlen) as Hpos.
    rewrite Hz in Hpos. by apply Qlt_irrefl in Hpos.
  - rewrite Hx. unfold XSpanOps.getLength, Num.ofZ.
    cbn [xend xstart Num.sub Num.neg Num.add Num.div].
    by rewrite (sgn_inject_Z_pos len Hlen).
  - by apply placeFeatureSegments_fold.
  - rewrite (placeFeatureSegments_fold _ x0 x1) by done.
    apply Forall_forall. intros placed Hin.
    apply list_elem_of_omap in Hin as (s & _ & Hs).
    unfold placedSegmentOf in Hs.
    destruct (FeatureSegmentOps.getOverlap s (visiblePart placedFeature)) as [v|] eqn:Hv;
      [|done].
    simplify_eq. simpl. eexists _, _. split; [reflexivity|].
    apply segment_getOverlap_nonempty in Hv.
    pose proof (pixelsPerBase_nonneg x0 x1 _ Hlen Hle) as Hppb.
    pose proof (inject_Z_nonneg (FeatureSegmentOps.getLength v) ltac:(lia)) as HL.
    pose proof (Qmult_le_0_compat _ _ HL Hppb). lra.
  - apply div_by_zero_not_finite.
Qed.

Lemma placeFeatureSegments_total_witness :
  let f := mkFeature 1 "f1" (mkChromosomeInterval "chr1" (mkOpenInterval 0 10)) in
  let placedFeature :=
    mkPlacedFeature f (mkFeatureSegment f 2 8) (mkOpenInterval 2 8)
      (mkXSpan (Fin 0) (Fin 3)) in
  FeaturePlacer.placeFeatureSegments placedFeature
    [mkFeatureSegment f 0 1; mkFeatureSegment f 4 12]
  = omap (placedSegmentOf placedFeature 0 ((3 - 0) / inject_Z 6))
      [mkFeatureSegment f 0 1; mkFeatureSegment f 4 12].
Proof.
  intros f placedFeature.
  apply (placeFeatureSegments_total placedFeature 0 3
           [mkFeatureSegment f 0 1; mkFeatureSegment f 4 12]);
    [reflexivity|reflexivity|unfold Qle; simpl; lia].
Defined.

(** ** IntervalArranger: sorting *)

Lemma compareIntervals_le (a b : OpenInterval) :
  Arranger.compareIntervals a b ≤ 0 ↔ precedes a b.
Proof.
  unfold Arranger.compareIntervals, precedes.
  destruct (Z.eqb_spec (start a - start b) 0); lia.
Qed.

Lemma precedes_total (a b : OpenInterval) : ¬ precedes a b → precedes b a.
Proof. unfold precedes. lia. Qed.

#[local] Instance precedes_trans : Transitive precedes.
Proof. intros a b c. unfold precedes. lia. Qed.

#[local] Instance precedes_antisym : AntiSymm (=) precedes.
Proof.
  intros [sa ea] [sb eb]. unfold precedes, OpenIntervalOps.getLength. simpl.
  intros H1 H2. f_equal; lia.
Qed.

Lemma sortInsert_Permutation (x : OpenInterval) (l : list OpenInterval) :
  sortInsert Arranger.compareIntervals x l ≡ₚ x :: l.
Proof.
  induction l as [|y l IH]; simpl; [done|].
  destruct (Z.leb_spec (Arranger.compareIntervals x y) 0); [done|].
  rewrite IH. apply Permutation_swap.
Qed.

Lemma sortIntervals_Permutation (l : list OpenInterval) :
  Arranger._sortIntervals l ≡ₚ l.
Proof.
  unfold Arranger._sortIntervals, arraySort.
  induction l as [|x l IH]; simpl; [done|].
  by rewrite sortInsert_Permutation, IH.
Qed.

Lemma sortInsert_Sorted (x : OpenInterval) (l : list OpenInterval) :
  Sorted precedes l → Sorted precedes (sortInsert Arranger.compareIntervals x l).
Proof.
  induction 1 as [|y l Hs IH Hhd]; simpl.
  - repeat constructor.
  - destruct (Z.leb_spec (Arranger.compareIntervals x y) 0) as [Hle|Hgt].
    + apply compareIntervals_le in Hle.
      constructor; [by constructor|by constructor].
    + constructor; [exact IH|].
      assert (precedes y x) as Hyx.
      { apply precedes_total. rewrite <- compareIntervals_le. lia. }
      destruct Hhd as [|z l' Hyz]; simpl.
      * by constructor.
      * destruct (Z.leb_spec (Arranger.compareIntervals x z) 0); by constructor.
Qed.

Lemma sortIntervals_Sorted (l : list OpenInterval) :
  Sorted precedes (Arranger._sortIntervals l).
Proof.
  unfold Arranger._sortIntervals, arraySort.
  induction l as [|x l IH]; simpl; [constructor|by apply sortInsert_Sorted].
Qed.

(** An array that is already in order is left as it is. *)
Lemma sortIntervals_sorted_id (l : list OpenInterval) :
  Sorted precedes l → Arranger._sortIntervals l = l.
Proof.
  unfold Arranger._sortIntervals, arraySort.
  induction 1 as [|x l Hs IH Hhd]; simpl; [done|].
  rewrite IH. destruct Hhd as [|y l' Hxy]; simpl; [done|].
  apply compareIntervals_le in Hxy.
  by destruct (Z.leb_spec (Arranger.compareIntervals x y) 0); [|lia].
Qed.

(** Intervals that compare equal are equal, so the sorted content does not
    depend on the sorting algorithm: it is the only sorted permutation. *)
Lemma sortIntervals_unique (l l' : list OpenInterval) :
  l' ≡ₚ l → Sorted precedes l' → l' = Arranger._sortIntervals l.
Proof.
  intros Hp Hs. apply (Sorted_unique precedes); auto.
  - apply sortIntervals_Sorted.
  - by rewrite sortIntervals_Permutation.
Qed.

(** ** IntervalArranger: the placement loop *)

Lemma findIndexFrom_spec {A} (p : A → bool) (l : list A) : ∀ k : Z,
  0 ≤ k →
  (findIndexFrom p l k = -1 ∧ ∀ (j : nat) y, l !! j = Some y → p y = false) ∨
  (∃ (r : nat) x,
     findIndexFrom p l k = k + Z.of_nat r ∧ l !! r = Some x ∧ p x = true ∧
     ∀ (j : nat) y, (j < r)%nat → l !! j = Some y → p y = false).
Proof.
  induction l as [|x l IH]; intros k Hk; simpl.
  - left. split; [done|]. intros j y Hj. done.
  - destruct (p x) eqn:Hpx.
    + right. exists 0%nat, x. split_and!; [lia|done|done|]. intros; lia.
    + destruct (IH (k + 1) ltac:(lia)) as [[Hnone Hall]|(r & z & Hr & Hz & Hpz & Hbefore)].
      * left. split; [done|]. intros [|j] y Hj; simpl in Hj; [by simplify_eq|eauto].
      * right. exists (S r), z. split_and!; [lia|done|done|].
        intros [|j] y Hj Hy; simpl in Hy; [by simplify_eq|].
        apply (Hbefore j); [lia|done].
Qed.

Lemma arrangeLoop_acc this (l : list OpenInterval) : ∀ rows acc,
  Arranger.arrangeLoop this l rows acc = acc ++ Arranger.arrangeLoop this l rows [].
Proof.
  induction l as [|x l IH]; intros rows acc; simpl.
  - by rewrite app_nil_r.
  - destruct (Arranger.placeInterval this rows x) as [row rows'].
    rewrite (IH rows' (acc ++ [row])), (IH rows' [row]), <- app_assoc. done.
Qed.

Lemma arrangeLoop_cons this x (l : list OpenInterval) rows :
  Arranger.arrangeLoop this (x :: l) rows [] =
  (Arranger.placeInterval this rows x).1 ::
  Arranger.arrangeLoop this l (Arranger.placeInterval this rows x).2 [].
Proof.
  simpl. destruct (Arranger.placeInterval this rows x) as [row rows'].
  by rewrite arrangeLoop_acc.
Qed.

Lemma length_arrangeLoop this (l : list OpenInterval) : ∀ rows,
  length (Arranger.arrangeLoop this l rows []) = length l.
Proof.
  induction l as [|x l IH]; intros rows; [done|].
  rewrite arrangeLoop_cons. simpl. by rewrite IH.
Qed.

(** One iteration either finds the lowest free row and occupies it, or
    finds none and leaves the rows alone. *)
Lemma placeInterval_spec this rows interval :
  (∃ (r : nat) maxX,
     Arranger.placeInterval this rows interval =
       (Z.of_nat r, <[r := ArrangerSpec.paddedEnd this interval]> rows) ∧
     rows !! r = Some maxX ∧ ArrangerSpec.freeFor this maxX interval ∧
     ∀ (j : nat) m, (j < r)%nat → rows !! j = Some m →
       ¬ ArrangerSpec.freeFor this m interval) ∨
  (Arranger.placeInterval this rows interval = (-1, rows) ∧
   ∀ (j : nat) m, rows !! j = Some m → ¬ ArrangerSpec.freeFor this m interval).
Proof.
  unfold Arranger.placeInterval, findIndex, ArrangerSpec.freeFor.
  fold (ArrangerSpec.paddedStart this interval).
  destruct (findIndexFrom_spec (λ maxX, Num.ltb maxX (ArrangerSpec.paddedStart this interval))
              rows 0 ltac:(lia)) as [[-> Hall]|(r & maxX & -> & Hr & Hfree & Hbefore)].
  - right. simpl. split; [done|]. intros j m Hj. rewrite (Hall j m Hj). done.
  - left. exists r, maxX.
    destruct (Z.eqb_spec (0 + Z.of_nat r) (-1)) as [?|_]; [lia|]. simpl.
    replace (Z.to_nat (0 + Z.of_nat r)) with r by lia.
    replace (0 + Z.of_nat r) with (Z.of_nat r) by lia.
    split_and!; [done..|].
    intros j m Hj Hm. rewrite (Hbefore j m Hj Hm). done.
Qed.

Lemma arrangeLoop_FirstFit this (l : list OpenInterval) : ∀ rows,
  ArrangerSpec.FirstFit this rows l (Arranger.arrangeLoop this l rows []).
Proof.
  induction l as [|x l IH]; intros rows.
  - constructor.
  - rewrite arrangeLoop_cons.
    destruct (placeInterval_spec this rows x)
      as [(r & maxX & -> & Hr & Hfree & Hbefore)|[-> Hnone]]; simpl.
    + eapply ArrangerSpec.FirstFit_fit; eauto.
    + apply ArrangerSpec.FirstFit_none; auto.
Qed.

(** The relation determines the rows: first fit is deterministic. *)
Lemma FirstFit_deterministic this rows l rs1 rs2 :
  ArrangerSpec.FirstFit this rows l rs1 →
  ArrangerSpec.FirstFit this rows l rs2 → rs1 = rs2.
Proof.
  intros H1. revert rs2.
  induction H1 as [rows|rows x rest r maxX rs Hr Hfree Hbefore _ IH
                  |rows x rest rs Hnone _ IH]; intros rs2 H2; inversion H2; subst.
  - done.
  - match goal with
    | Hr' : rows !! ?r' = Some ?m', Hf' : ArrangerSpec.freeFor this ?m' x,
      Hb' : ∀ (j : nat) m, (j < ?r')%nat → _ |- _ =>
        assert (r = r') as <-;
          [destruct (Nat.lt_trichotomy r r') as [Hlt|[Heq|Hgt]];
             [exfalso; exact (Hb' r maxX Hlt Hr Hfree)
             |exact Heq
             |exfalso; exact (Hbefore r' m' Hgt Hr' Hf')]|]
    end.
    f_equal. by apply IH.
  - exfalso. match goal with Hn : ∀ (j : nat) m, rows !! j = Some m → _ |- _ =>
      exact (Hn r maxX Hr Hfree) end.
  - exfalso. match goal with
    | Hr' : rows !! ?r' = Some ?m', Hf' : ArrangerSpec.freeFor this ?m' x |- _ =>
        exact (Hnone r' m' Hr' Hf') end.
  - f_equal. by apply IH.
Qed.

(** ** C3: first fit *)

Section UnpaddedMonotoneModel.
(** A drawing model whose [baseToX] is finite and strictly increasing,
    and an arranger without padding. *)
Variable this : IntervalArranger.
Variable X : Z → Q.
Hypothesis Hpad : ∀ interval, getPadding this interval = Fin 0.
Hypothesis HX : ∀ b, baseToX (drawModel this) b = Fin (X b).
Hypothesis Hmono : ∀ a b, a < b → (X a < X b)%Q.

Lemma ltb_occupied (e s : Z) :
  Num.ltb (Fin (X e + 0)) (Fin (X s + - 0)) = bool_decide (e < s).
Proof.
  unfold Num.ltb.
  assert ((X e + 0 ?= X s + - 0) = (X e ?= X s))%Q as ->.
  { apply Qcompare_comp; ring. }
  assert (e < s ↔ (X e < X s)%Q) as Hiff.
  { split; [apply Hmono|]. intros Hlt.
    destruct (decide (e < s)) as [|Hge]; [done|exfalso].
    destruct (decide (e = s)) as [->|Hne]; [by apply Qlt_irrefl in Hlt|].
    assert (s < e) as Hse by lia. apply Hmono in Hse.
    apply (Qlt_irrefl (X e)). by eapply Qlt_trans. }
  rewrite Qlt_alt in Hiff.
  case_bool_decide as Hlt.
  - apply Hiff in Hlt. by rewrite Hlt.
  - destruct (X e ?= X s)%Q eqn:E; try done. exfalso. by apply Hlt, Hiff.
Qed.

Lemma placeInterval_unpadded rows interval :
  Arranger.placeInterval this rows interval =
  let row := findIndex (λ maxX, Num.ltb maxX (Fin (X (start interval) + - 0))) rows in
  if negb (row =? -1)
  then (row, <[Z.to_nat row := Fin (X (end_ interval) + 0)]> rows)
  else (row, rows).
Proof. unfold Arranger.placeInterval. by rewrite Hpad, !HX. Qed.

Lemma findIndexFrom_toPixel (s : Z) (rows : list (option Z)) : ∀ k,
  findIndexFrom (λ maxX, Num.ltb maxX (Fin (X s + - 0))) (BaseRows.toPixel X <$> rows) k
  = findIndexFrom (BaseRows.free s) rows k.
Proof.
  induction rows as [|row rows IH]; intros k; [done|].
  rewrite fmap_cons. cbn [findIndexFrom]. rewrite IH.
  destruct row as [e|]; cbn [BaseRows.toPixel BaseRows.free]; [|done].
  by rewrite ltb_occupied.
Qed.

Lemma placeInterval_toPixel rows interval :
  Arranger.placeInterval this (BaseRows.toPixel X <$> rows) interval =
  ((BaseRows.place rows interval).1,
   BaseRows.toPixel X <$> (BaseRows.place rows interval).2).
Proof.
  rewrite placeInterval_unpadded. unfold BaseRows.place, findIndex. cbv zeta.
  rewrite findIndexFrom_toPixel.
  destruct (negb _); cbn [fst snd]; [|done].
  by rewrite list_fmap_insert.
Qed.

Lemma arrangeLoop_toPixel (intervals : list OpenInterval) : ∀ rows,
  Arranger.arrangeLoop this intervals (BaseRows.toPixel X <$> rows) [] =
  BaseRows.assign intervals rows.
Proof.
  induction intervals as [|x l IH]; intros rows; [done|].
  rewrite arrangeLoop_cons, placeInterval_toPixel. cbn [fst snd BaseRows.assign].
  by rewrite IH.
Qed.

(** With rows to fill, the returned indices are the first-fit rows over
    base coordinates of the intervals in sorted order. *)
Lemma arrange_unpadded (intervals : list OpenInterval) :
  0 < numRows this →
  (Arranger.arrange this intervals).1 =
  BaseRows.assign (Arranger._sortIntervals intervals)
                  (replicate (Z.to_nat (numRows this)) None).
Proof.
  intros Hrows. unfold Arranger.arrange.
  destruct (Z.leb_spec (numRows this) 0) as [?|_]; [lia|]. cbn [fst].
  by rewrite <- arrangeLoop_toPixel, fmap_replicate.
Qed.
End UnpaddedMonotoneModel.

(** C3.  [arrange] is deterministic first fit.  With [numRows ≤ 0] every
    interval gets row -1.  Otherwise the intervals are processed in
    ascending-start order, ties broken by longer interval first (the
    processing order is a sorted permutation of the input), and each
    interval receives the lowest-index row whose occupied coordinate is
    strictly less than its padded pixel start, that row then being occupied
    up to the interval's pixel end plus padding, or -1 when no row
    qualifies; the returned list holds the rows in processing order.  With
    2 rows, no padding and a strictly increasing [baseToX], A=[0,10),
    B=[5,15), C=[12,20) get rows 0, 1, 0, and a fourth interval starting
    inside both occupied ranges (12 < start < 15) gets -1. *)
Theorem arrange_first_fit :
  (∀ this intervals,
     numRows this ≤ 0 →
     (Arranger.arrange this intervals).1 = replicate (length intervals) (-1)) ∧
  (∀ this intervals,
     0 < numRows this →
     ∃ order,
       order ≡ₚ intervals ∧ Sorted precedes order ∧
       ArrangerSpec.FirstFit this (replicate (Z.to_nat (numRows this)) NInf) order
         (Arranger.arrange this intervals).1 ∧
       ∀ rows, ArrangerSpec.FirstFit this (replicate (Z.to_nat (numRows this)) NInf)
                 order rows → rows = (Arranger.arrange this intervals).1) ∧
  (∀ this (X : Z → Q),
     numRows this = 2 →
     (∀ interval, getPadding this interval = Fin 0) →
     (∀ b, baseToX (drawModel this) b = Fin (X b)) →
     (∀ a b, a < b → (X a < X b)%Q) →
     (Arranger.arrange this [intervalA; intervalB; intervalC]).1 = [0; 1; 0] ∧
     ∀ intervalD,
       12 < start intervalD < 15 → start intervalD ≤ end_ intervalD →
       (Arranger.arrange this [intervalA; intervalB; intervalC; intervalD]).1
       = [0; 1; 0; -1]).
Proof.
  split_and!.
  - intros this intervals Hrows. unfold Arranger.arrange.
    by destruct (Z.leb_spec (numRows this) 0) as [_|?]; [|lia].
  - intros this intervals Hrows. exists (Arranger._sortIntervals intervals).
    assert ((Arranger.arrange this intervals).1 =
            Arranger.arrangeLoop this (Arranger._sortIntervals intervals)
              (replicate (Z.to_nat (numRows this)) NInf) []) as ->.
    { unfold Arranger.arrange.
      by destruct (Z.leb_spec (numRows this) 0) as [?|_]; [lia|]. }
    split_and!.
    + apply sortIntervals_Permutation.
    + apply sortIntervals_Sorted.
    + apply arrangeLoop_FirstFit.
    + intros rows Hrs. eapply FirstFit_deterministic; [exact Hrs|].
      apply arrangeLoop_FirstFit.
  - intros this X Hrows Hpad HX Hmono. split.
    + rewrite (arrange_unpadded this X Hpad HX Hmono) by lia.
      rewrite Hrows. reflexivity.
    + intros [sD eD] Hs He. simpl in Hs, He.
      rewrite (arrange_unpadded this X Hpad HX Hmono) by lia.
      rewrite Hrows.
      assert (sD = 13 ∨ sD = 14) as [-> | ->] by lia; reflexivity.
Qed.

Lemma arrange_first_fit_witness :
  let this := mkIntervalArranger unitDrawingModel 2 (λ _, Fin 0) in
  (Arranger.arrange this [intervalA; intervalB; intervalC]).1 = [0; 1; 0] ∧
  (Arranger.arrange this [intervalA; intervalB; intervalC; mkOpenInterval 14 25]).1
  = [0; 1; 0; -1].
Proof.
  intros this.
  destruct (proj2 (proj2 arrange_first_fit) this inject_Z eq_refl
              (λ _, eq_refl) (λ _, eq_refl)) as [HABC HD].
  { intros a b Hab. unfold Qlt. simpl. lia. }
  split; [exact HABC|].
  apply (HD (mkOpenInterval 14 25)); simpl; lia.
Defined.

Lemma arrange_snd this intervals :
  (Arranger.arrange this intervals).2 =
  if numRows this <=? 0 then intervals else Arranger._sortIntervals intervals.
Proof. unfold Arranger.arrange. by destruct (numRows this <=? 0). Qed.

Lemma arrange_fst this intervals :
  (Arranger.arrange this intervals).1 =
  if numRows this <=? 0 then replicate (length intervals) (-1)
  else Arranger.arrangeLoop this (Arranger._sortIntervals intervals)
         (replicate (Z.to_nat (numRows this)) NInf) [].
Proof. unfold Arranger.arrange. by destruct (numRows this <=? 0). Qed.

Lemma arrangeLoop_lookup this (l : list OpenInterval) : ∀ rows (i : nat) x,
  l !! i = Some x →
  Arranger.arrangeLoop this l rows [] !! i =
  Some (Arranger.placeInterval this
          (foldl (λ rows interval, (Arranger.placeInterval this rows interval).2)
                 rows (take i l)) x).1.
Proof.
  induction l as [|y l IH]; intros rows i x Hx; [done|].
  rewrite arrangeLoop_cons. destruct i as [|i]; simpl in *.
  - by simplify_eq.
  - by apply IH.
Qed.

(** ** C4: which order the returned rows are in *)

(** C4, as stated, fails: the returned indices are not aligned with the
    order in which the intervals were passed.  With one row, [B; A] yields
    [0; -1], although B, passed first, is the interval that found no row. *)
Lemma arrange_rows_not_in_input_order :
  ¬ (∀ (this : IntervalArranger) (intervals : list OpenInterval) (i : nat) x,
       intervals !! i = Some x →
       (Arranger.arrange this intervals).1 !! i =
       ArrangerSpec.assignedRow this intervals x).
Proof.
  intros H.
  specialize (H singleRowArranger [intervalB; intervalA] 0%nat intervalB eq_refl).
  vm_compute in H. discriminate H.
Qed.

Lemma arrange_rows_of_final_array (this : IntervalArranger)
    (intervals : list OpenInterval) :
  length (Arranger.arrange this intervals).1 = length intervals ∧
  (∀ (i : nat) x,
     (Arranger.arrange this intervals).2 !! i = Some x →
     (Arranger.arrange this intervals).1 !! i =
     Some (if numRows this <=? 0 then -1
           else (Arranger.placeInterval this
                   (ArrangerSpec.rowsAfter this
                      (take i (Arranger.arrange this intervals).2)) x).1)) ∧
  (0 < numRows this →
     (Arranger.arrange this intervals).2 ≡ₚ intervals ∧
     Sorted precedes (Arranger.arrange this intervals).2) ∧
  (Sorted precedes intervals → (Arranger.arrange this intervals).2 = intervals).
Proof.
  rewrite arrange_fst, arrange_snd.
  destruct (Z.leb_spec (numRows this) 0) as [Hle|Hgt]; split_and!.
  - by rewrite length_replicate.
  - intros i x Hx. apply lookup_replicate_2. by eapply lookup_lt_Some.
  - lia.
  - done.
  - by rewrite length_arrangeLoop, (Permutation_length (sortIntervals_Permutation _)).
  - intros i x Hx. by apply arrangeLoop_lookup.
  - intros _. split; [apply sortIntervals_Permutation|apply sortIntervals_Sorted].
  - apply sortIntervals_sorted_id.
Qed.

(** C4, amended.  The returned list has one index per interval, and its
    i-th index is the row given to the i-th interval of the array as the
    call leaves it, that is, in sorted order ([arrange] sorts its argument
    in place): the row found for that interval once the intervals before it
    in that order have been placed, or -1 when there are no rows.  When the
    input was already in sorted order the call leaves it as it was, and the
    i-th index is then the row of the i-th interval as passed. *)
Theorem arrange_rows_in_sorted_order (this : IntervalArranger)
    (intervals : list OpenInterval) :
  length (Arranger.arrange this intervals).1 = length intervals ∧
  (∀ (i : nat) x,
     (Arranger.arrange this intervals).2 !! i = Some x →
     (Arranger.arrange this intervals).1 !! i =
     Some (if numRows this <=? 0 then -1
           else (Arranger.placeInterval this
                   (ArrangerSpec.rowsAfter this
                      (take i (Arranger.arrange this intervals).2)) x).1)) ∧
  (0 < numRows this →
     (Arranger.arrange this intervals).2 ≡ₚ intervals ∧
     Sorted precedes (Arranger.arrange this intervals).2) ∧
  (Sorted precedes intervals → (Arranger.arrange this intervals).2 = intervals) ∧
  (Sorted precedes intervals →
     ∀ (i : nat) x,
       intervals !! i = Some x →
       (Arranger.arrange this intervals).1 !! i =
       Some (if numRows this <=? 0 then -1
             else (Arranger.placeInterval this
                     (ArrangerSpec.rowsAfter this (take i intervals)) x).1)).
Proof.
  destruct (arrange_rows_of_final_array this intervals) as (Hlen & Hrow & Hsort & Hid).
  split_and!; [done..|].
  intros Hs i x Hx. specialize (Hid Hs). specialize (Hrow i x).
  rewrite Hid in Hrow. by apply Hrow.
Qed.

Lemma arrange_rows_in_sorted_order_witness :
  (Arranger.arrange singleRowArranger [intervalB; intervalA]).2 = [intervalA; intervalB] ∧
  (Arranger.arrange singleRowArranger [intervalB; intervalA]).1 !! 1%nat =
    Some (Arranger.placeInterval singleRowArranger
            (ArrangerSpec.rowsAfter singleRowArranger [intervalA]) intervalB).1 ∧
  (Arranger.arrange singleRowArranger [intervalA; intervalB]).2 = [intervalA; intervalB] ∧
  (Arranger.arrange singleRowArranger [intervalA; intervalB]).1 !! 1%nat =
    Some (Arranger.placeInterval singleRowArranger
            (ArrangerSpec.rowsAfter singleRowArranger [intervalA]) intervalB).1.
Proof.
  assert (Sorted precedes [intervalA; intervalB]) as Hsorted.
  { repeat (constructor; [|try constructor; unfold precedes; simpl; try lia]).
    constructor. }
  split; [reflexivity|]. split_and!.
  - apply (proj1 (proj2 (arrange_rows_in_sorted_order singleRowArranger
                           [intervalB; intervalA])) 1%nat intervalB).
    reflexivity.
  - exact (proj1 (proj2 (proj2 (proj2 (arrange_rows_in_sorted_order singleRowArranger
                                         [intervalA; intervalB])))) Hsorted).
  - apply (proj2 (proj2 (proj2 (proj2 (arrange_rows_in_sorted_order singleRowArranger
                                         [intervalA; intervalB])))) Hsorted 1%nat intervalB).
    reflexivity.
Defined.

(** ** C9: the effect of arrange on its argument *)

(** C9, as stated, fails: [arrange] does not leave its input list
    unchanged.  Called on [B; A] it leaves the array as [A; B]. *)
Lemma arrange_changes_its_input :
  ¬ (∀ (this : IntervalArranger) (intervals : list OpenInterval),
       (Arranger.arrange this intervals).2 = intervals).
Proof.
  intros H. specialize (H singleRowArranger [intervalB; intervalA]).
  vm_compute in H. discriminate H.
Qed.

(** C9, amended.  [arrange] leaves its input list untouched when
    [numRows ≤ 0]; otherwise it sorts that list in place: afterwards the
    list holds the same elements (a permutation of what was passed) in
    ascending-start order, longer first among equal starts, and it is
    unchanged exactly when it was already in that order. *)
Theorem arrange_sorts_its_input (this : IntervalArranger)
    (intervals : list OpenInterval) :
  (numRows this ≤ 0 → (Arranger.arrange this intervals).2 = intervals) ∧
  (0 < numRows this →
     (Arranger.arrange this intervals).2 = Arranger._sortIntervals intervals ∧
     (Arranger.arrange this intervals).2 ≡ₚ intervals ∧
     Sorted precedes (Arranger.arrange this intervals).2 ∧
     ((Arranger.arrange this intervals).2 = intervals ↔ Sorted precedes intervals)).
Proof.
  rewrite arrange_snd.
  destruct (Z.leb_spec (numRows this) 0) as [Hle|Hgt]; split; try lia; try done.
  intros _. split_and!.
  - done.
  - apply sortIntervals_Permutation.
  - apply sortIntervals_Sorted.
  - split.
    + intros <-. apply sortIntervals_Sorted.
    + apply sortIntervals_sorted_id.
Qed.

Lemma arrange_sorts_its_input_witness :
  (Arranger.arrange (mkIntervalArranger unitDrawingModel 0 (λ _, Fin 0))
     [intervalB; intervalA]).2 = [intervalB; intervalA] ∧
  (Arranger.arrange singleRowArranger [intervalB; intervalA]).2 ≡ₚ [intervalB; intervalA] ∧
  Sorted precedes (Arranger.arrange singleRowArranger [intervalB; intervalA]).2.
Proof.
  split.
  - apply (proj1 (arrange_sorts_its_input
                    (mkIntervalArranger unitDrawingModel 0 (λ _, Fin 0))
                    [intervalB; intervalA])).
    simpl. lia.
  - assert (0 < numRows singleRowArranger) as Hrows by (simpl; lia).
    destruct (proj2 (arrange_sorts_its_input singleRowArranger [intervalB; intervalA]) Hrows)
      as (_ & Hperm & Hsorted & _).
    exact (conj Hperm Hsorted).
Defined.

(** ** C5: features in an interval *)

Lemma overlapping_past_query qs qe incl features : ∀ total,
  Forall wfFeature features → qe ≤ total →
  overlapping qs qe incl features total = [].
Proof.
  induction features as [|f rest IH]; intros total Hwf Hq; [done|].
  apply Forall_cons in Hwf as [Hf Hwf]. unfold wfFeature in Hf. simpl.
  rewrite IH by (done || lia). rewrite app_nil_r.
  destruct (considered incl f); [|done].
  unfold clipTo, OpenIntervalOps.getOverlap. simpl.
  by destruct (Z.ltb_spec (Z.max total qs) (Z.min (total + FeatureOps.getLength f) qe));
    [lia|].
Qed.

(** When no considered feature is empty, the early exit loses nothing:
    the loop returns every considered feature clipped to the query. *)
Lemma featuresInIntervalLoop_complete ctx qs qe incl features :
  ∀ total results,
  Forall wfFeature features →
  (∀ f, f ∈ features → considered incl f = true → 0 < FeatureOps.getLength f) →
  (∀ (j : nat) f, features !! j = Some f →
     _startCoordinateForFeature ctx !! handle f = offsetsFrom features total !! j) →
  (results ≠ [] → qs < total) →
  NavContext.featuresInIntervalLoop ctx features (mkOpenInterval qs qe) incl results
  = Ok (results ++ overlapping qs qe incl features total).
Proof.
  induction features as [|f rest IH]; intros total results Hwf Hpos Hget Hres.
  - simpl. by rewrite app_nil_r.
  - apply Forall_cons in Hwf as [Hf Hwf]. unfold wfFeature in Hf.
    assert (∀ g, g ∈ rest → considered incl g = true → 0 < FeatureOps.getLength g)
      as Hpos'.
    { intros g Hg. apply Hpos. by right. }
    assert (∀ (j : nat) g, rest !! j = Some g →
              _startCoordinateForFeature ctx !! handle g
              = offsetsFrom rest (total + FeatureOps.getLength f) !! j) as Hget'.
    { intros j g Hg. apply (Hget (S j) g Hg). }
    cbn [NavContext.featuresInIntervalLoop overlapping]. unfold considered at 1.
    destruct (negb incl && NavContext.isGapFeature f) eqn:Hskip; cbn [negb].
    { rewrite (IH (total + FeatureOps.getLength f) results); auto.
      intros Hne. specialize (Hres Hne). lia. }
    unfold NavContext.getFeatureStart. rewrite (Hget 0%nat f eq_refl). simpl.
    specialize (Hpos f ltac:(left)). unfold considered in Hpos.
    rewrite Hskip in Hpos. specialize (Hpos eq_refl).
    unfold clipTo.
    destruct (OpenIntervalOps.getOverlap _ _) as [o|] eqn:Ho; simpl.
    + rewrite (IH (total + FeatureOps.getLength f)); auto.
      * by rewrite <- app_assoc.
      * intros _. unfold OpenIntervalOps.getOverlap in Ho. simpl in Ho.
        destruct (Z.ltb_spec (Z.max total qs) (Z.min (total + FeatureOps.getLength f) qe));
          [lia|done].
    + destruct results as [|r results]; simpl.
      * rewrite (IH (total + FeatureOps.getLength f) []); auto. done.
      * specialize (Hres ltac:(done)).
        rewrite overlapping_past_query; [by rewrite app_nil_r|done|].
        unfold OpenIntervalOps.getOverlap in Ho. simpl in Ho.
        destruct (Z.ltb_spec (Z.max total qs) (Z.min (total + FeatureOps.getLength f) qe));
          [done|lia].
Qed.

Lemma getFeaturesInInterval_complete ctxName features ctx qs qe incl :
  NavContext.construct ctxName features = Ok ctx →
  Forall wfFeature features →
  (∀ f, f ∈ features → considered incl f = true → 0 < FeatureOps.getLength f) →
  NavContext.getFeaturesInInterval ctx qs qe incl
  = Ok (overlapping qs qe incl features 0).
Proof.
  intros Hc Hwf Hpos.
  apply construct_inv in Hc as (Hfs & _ & _ & _ & _ & Hget).
  unfold NavContext.getFeaturesInInterval. rewrite Hfs.
  by rewrite (featuresInIntervalLoop_complete ctx qs qe incl features 0 []).
Qed.

(** C5.  The claim is that the early exit never drops an overlapping
    feature.  It does when an empty feature follows an overlap: in the
    context [10bp feature; empty gap; 10bp feature] and for the query
    [5, 15), the third feature spans [10, 20) and overlaps the query in
    [10, 15), yet the result holds the first feature's segment only,
    because the empty gap shows no overlap and ends the scan. *)
Theorem getFeaturesInInterval_stops_at_empty_feature :
  ∃ ctx f1 f3,
    NavContext.construct "ctx" emptyGapFeatures = Ok ctx ∧
    emptyGapFeatures !! 0%nat = Some f1 ∧
    emptyGapFeatures !! 2%nat = Some f3 ∧
    NavContext.getFeatureStart ctx f3 = Ok 10 ∧
    clipTo 5 15 f3 10 = Some (mkFeatureSegment f3 0 5) ∧
    overlapping 5 15 true emptyGapFeatures 0 =
      [mkFeatureSegment f1 5 10; mkFeatureSegment f3 0 5] ∧
    NavContext.getFeaturesInInterval ctx 5 15 true = Ok [mkFeatureSegment f1 5 10].
Proof.
  eexists _, _, _. split; [reflexivity|].
  split; [reflexivity|]. split; [reflexivity|].
  split_and!; reflexivity.
Qed.

(** ** The locus pattern *)

Lemma skipDigits_run (ds rest : string) :
  allDigits ds = true →
  skipDigits (ds +:+ String "-" rest) = String "-" rest.
Proof.
  induction ds as [|d ds IH]; simpl; [done|].
  intros [Hd Hds]%andb_true_iff. rewrite Hd. by apply IH.
Qed.

Lemma intervalMatch_prefix (pre s : string) :
  intervalMatch s = true → intervalMatch (pre +:+ s) = true.
Proof.
  intros Hs. induction pre as [|c pre IH]; simpl; [done|].
  rewrite IH. by rewrite orb_true_r.
Qed.

(** Every text that contains [c:digits-digits], with [c] a word character
    or a colon, passes the test of [parse]; in particular every text that
    is exactly of the form [chr:start-end]. *)
Lemma intervalMatch_locus_form (pre : string) (c d1 d2 : ascii) (ds1 rest : string) :
  isWordChar c || isColon c = true →
  isDigit d1 = true → allDigits ds1 = true → isDigit d2 = true →
  intervalMatch (pre +:+ String c (String ":" (String d1 (ds1 +:+ String "-" (String d2 rest)))))
  = true.
Proof.
  intros Hc Hd1 Hds1 Hd2. apply intervalMatch_prefix.
  cbn [intervalMatch matchLocusTail]. rewrite Hc, Hd1, skipDigits_run by done.
  by rewrite Hd2.
Qed.

Example intervalMatch_examples :
  intervalMatch "chr1:100-200" = true ∧
  intervalMatch "NoSuchFeature" = false ∧
  intervalMatch "chr1:100" = false ∧
  intervalMatch "region chr1:100-200 (hg19)" = true.
Proof. by vm_compute. Qed.

(** * Further properties of the embedded code *)

(** ** NavigationContext: construction and feature starts *)

Lemma construct_foreign ctxName features ctx (h : nat) :
  NavContext.construct ctxName features = Ok ctx →
  h ∉ handle <$> features →
  _startCoordinateForFeature ctx !! h = None.
Proof.
  unfold NavContext.construct. intros H Hh.
  destruct (NavContext.build features ∅ [] 0) as [[[m starts] total]|e] eqn:Hb;
    simpl in H; [|done].
  simplify_eq. simpl.
  apply build_inv in Hb as (_ & _ & _ & _ & Hframe & _).
  by rewrite Hframe, lookup_empty.
Qed.

Lemma featureStart_is_offset ctxName features ctx (i : nat) f :
  NavContext.construct ctxName features = Ok ctx →
  features !! i = Some f →
  NavContext.getFeatureStart ctx f = Ok (totalLength (take i features)).
Proof.
  intros Hc Hf. apply construct_inv in Hc as (_ & _ & _ & _ & _ & Hget).
  unfold NavContext.getFeatureStart.
  rewrite (Hget i f Hf), offsetsFrom_lookup by (by eapply lookup_lt_Some).
  f_equal; lia.
Qed.

(** X1.  Offset law: in a constructed context the start of the i-th
    feature is the sum of the lengths of the features before it. *)
Theorem getFeatureStart_offset (ctxName : string) (features : list Feature)
    (ctx : NavigationContext) (i : nat) (f : Feature) :
  NavContext.construct ctxName features = Ok ctx →
  features !! i = Some f →
  NavContext.getFeatureStart ctx f = Ok (totalLength (take i features)).
Proof. apply featureStart_is_offset. Qed.

Lemma getFeatureStart_offset_witness :
  NavContext.getFeatureStart exampleContext
    (mkFeature 3 "f2" (mkChromosomeInterval "chr1" (mkOpenInterval 20 30)))
  = Ok 20.
Proof.
  apply (getFeatureStart_offset "ctx" exampleFeatures exampleContext 2%nat);
    reflexivity.
Defined.

(** X2.  A feature object belongs to a constructed context exactly when
    [getFeatureStart] returns; for any other object it throws a RangeError,
    and so does the conversion of any of its segments to context
    coordinates. *)
Theorem getFeatureStart_membership (ctxName : string) (features : list Feature)
    (ctx : NavigationContext) (f : Feature) :
  NavContext.construct ctxName features = Ok ctx →
  (handle f ∈ handle <$> features →
     ∃ s, NavContext.getFeatureStart ctx f = Ok s) ∧
  (handle f ∉ handle <$> features →
     NavContext.getFeatureStart ctx f = Throw RangeError ∧
     ∀ relStart relEnd,
       NavContext.convertFeatureSegmentToContextCoordinates ctx
         (mkFeatureSegment f relStart relEnd) = Throw RangeError).
Proof.
  intros Hc. split.
  - intros (g & Hfg & Hg)%list_elem_of_fmap.
    apply list_elem_of_lookup in Hg as [i Hi].
    exists (totalLength (take i features)).
    rewrite <- (featureStart_is_offset ctxName features ctx i g Hc Hi).
    unfold NavContext.getFeatureStart. by rewrite Hfg.
  - intros Hout. pose proof (construct_foreign _ _ _ _ Hc Hout) as Hnone.
    unfold NavContext.convertFeatureSegmentToContextCoordinates,
      NavContext.getFeatureStart. simpl. by rewrite Hnone.
Qed.

Lemma getFeatureStart_membership_witness :
  NavContext.getFeatureStart exampleContext
    (mkFeature 7 "f1" (mkChromosomeInterval "chr1" (mkOpenInterval 0 10)))
  = Throw RangeError.
Proof.
  apply (getFeatureStart_membership "ctx" exampleFeatures exampleContext
           (mkFeature 7 "f1" (mkChromosomeInterval "chr1" (mkOpenInterval 0 10)))
           eq_refl).
  vm_compute. intros H. repeat (apply elem_of_cons in H as [H|H]; [discriminate H|]).
  by apply elem_of_nil in H.
Defined.

(** X3.  The constructor succeeds exactly on lists without a repeated
    feature object.  The context it builds keeps the name and the feature
    list, counts the sum of the feature lengths as its total bases, and
    records one start per feature; on a list with a repeated object it
    throws [Error]. *)
Theorem construct_characterisation (ctxName : string) (features : list Feature) :
  (NoDup (handle <$> features) →
     ∃ ctx, NavContext.construct ctxName features = Ok ctx ∧
       _name ctx = ctxName ∧ _features ctx = features ∧
       NavContext.getTotalBases ctx = totalLength features ∧
       length (_sortedFeatureStarts ctx) = length features) ∧
  (¬ NoDup (handle <$> features) →
     NavContext.construct ctxName features = Throw Error).
Proof.
  split; [|apply construct_repeated_object].
  intros Hnd. apply (construct_ok_iff ctxName) in Hnd as [ctx Hc].
  exists ctx. split; [done|].
  assert (_name ctx = ctxName) as Hname.
  { unfold NavContext.construct in Hc.
    destruct (NavContext.build features ∅ [] 0) as [[[m starts] total]|e];
      simpl in Hc; by simplify_eq. }
  apply construct_inv in Hc as (Hfs & Hst & Htot & _).
  split_and!; [done|done|done|].
  by rewrite Hst, length_offsetsFrom.
Qed.

Lemma construct_characterisation_witness :
  (∃ ctx, NavContext.construct "ctx" exampleFeatures = Ok ctx ∧
     NavContext.getTotalBases ctx = 30) ∧
  NavContext.construct "ctx"
    [mkFeature 1 "a" (mkChromosomeInterval "chr1" (mkOpenInterval 0 10));
     mkFeature 1 "a" (mkChromosomeInterval "chr1" (mkOpenInterval 0 10))]
  = Throw Error.
Proof.
  split.
  - destruct (proj1 (construct_characterisation "ctx" exampleFeatures))
      as (ctx & Hc & _ & _ & Htot & _).
    { vm_compute. repeat (constructor; [vm_compute; intros H;
        repeat (apply elem_of_cons in H as [H|H]; [discriminate H|]);
        by apply elem_of_nil in H|]). constructor. }
    exists ctx. split; [exact Hc|]. rewrite Htot. reflexivity.
  - apply (proj2 (construct_characterisation "ctx" _)).
    intros Hnd. apply NoDup_cons in Hnd as [Hnotin _]. apply Hnotin. left.
Defined.

(** ** NavigationContext: the feature that owns a base *)

Lemma spans_ordered features (i j : nat) f :
  Forall wfFeature features → features !! i = Some f → (i < j)%nat →
  totalLength (take i features) + FeatureOps.getLength f ≤ totalLength (take j features).
Proof.
  intros Hwf Hf Hij. rewrite <- (totalLength_take_S _ _ _ Hf).
  apply totalLength_take_mono; [done|lia].
Qed.

(** Context spans of distinct features do not share a base. *)
Lemma owner_unique features (b : Z) (i j : nat) f g :
  Forall wfFeature features →
  features !! i = Some f → features !! j = Some g →
  totalLength (take i features) ≤ b < totalLength (take i features) + FeatureOps.getLength f →
  totalLength (take j features) ≤ b < totalLength (take j features) + FeatureOps.getLength g →
  i = j.
Proof.
  intros Hwf Hf Hg Hi Hj.
  destruct (Nat.lt_trichotomy i j) as [Hlt|[Heq|Hgt]]; [|done|].
  - pose proof (spans_ordered features i j f Hwf Hf Hlt). lia.
  - pose proof (spans_ordered features j i g Hwf Hg Hgt). lia.
Qed.

Lemma convertBase_valid ctxName features ctx (b : Z) :
  NavContext.construct ctxName features = Ok ctx →
  Forall wfFeature features →
  0 ≤ b < NavContext.getTotalBases ctx →
  ∃ (i : nat) f,
    features !! i = Some f ∧
    NavContext.convertBaseToFeatureCoordinate ctx b =
      Ok (mkFeatureSegment f (b - totalLength (take i features))
                             (b - totalLength (take i features))) ∧
    totalLength (take i features) ≤ b <
      totalLength (take i features) + FeatureOps.getLength f.
Proof.
  intros Hc Hwf Hb.
  apply construct_inv in Hc as (Hfs & Hst & Htot & _ & Hnd & Hget).
  unfold NavContext.getTotalBases in Hb. rewrite Htot in Hb.
  destruct (owner_of_base features b Hwf Hb) as (f & Hpos & Hf & Hin).
  set (r := sortedLastIndex (offsetsFrom features 0) b) in *.
  exists (r - 1)%nat, f. split; [done|]. split; [|done].
  unfold NavContext.convertBaseToFeatureCoordinate, NavContext.getIsValidBase.
  rewrite Htot.
  replace ((0 <=? b) && (b <? totalLength features)) with true
    by (symmetry; apply andb_true_iff; split; [apply Z.leb_le|apply Z.ltb_lt]; lia).
  simpl negb. cbv iota. rewrite Hst, Hfs. fold r.
  destruct (Z.ltb_spec (Z.of_nat r - 1) 0) as [?|_]; [lia|].
  replace (Z.to_nat (Z.of_nat r - 1)) with (r - 1)%nat by lia.
  rewrite Hf, (offsetsFrom_lookup features 0 (r - 1)) by (apply lookup_lt_Some in Hf; lia).
  done.
Qed.

Lemma convertBase_invalid ctx (b : Z) :
  ¬ (0 ≤ b < NavContext.getTotalBases ctx) →
  NavContext.convertBaseToFeatureCoordinate ctx b = Throw RangeError.
Proof.
  intros Hb. unfold NavContext.convertBaseToFeatureCoordinate, NavContext.getIsValidBase.
  unfold NavContext.getTotalBases in Hb.
  destruct (Z.leb_spec 0 b), (Z.ltb_spec b (_totalBases ctx)); simpl; done || lia.
Qed.

(** X4.  In a constructed context, a valid base is converted to the
    zero-length segment of the one feature whose context span contains it,
    at the offset of the base inside that feature (so the offset is within
    the feature); any other base, and every base of an empty context,
    throws a RangeError. *)
Theorem convertBaseToFeatureCoordinate_owner (ctxName : string)
    (features : list Feature) (ctx : NavigationContext) (b : Z) :
  NavContext.construct ctxName features = Ok ctx →
  Forall wfFeature features →
  (0 ≤ b < NavContext.getTotalBases ctx →
     ∃ (i : nat) f,
       features !! i = Some f ∧
       NavContext.convertBaseToFeatureCoordinate ctx b =
         Ok (mkFeatureSegment f (b - totalLength (take i features))
                                (b - totalLength (take i features))) ∧
       0 ≤ b - totalLength (take i features) < FeatureOps.getLength f ∧
       ∀ (j : nat) g,
         features !! j = Some g →
         totalLength (take j features) ≤ b <
           totalLength (take j features) + FeatureOps.getLength g →
         j = i) ∧
  (¬ (0 ≤ b < NavContext.getTotalBases ctx) →
     NavContext.convertBaseToFeatureCoordinate ctx b = Throw RangeError) ∧
  (features = [] →
     NavContext.convertBaseToFeatureCoordinate ctx b = Throw RangeError).
Proof.
  intros Hc Hwf.
  pose proof (convertBase_invalid ctx b) as Hout.
  split; [|split; [done|]].
  - intros Hb.
    destruct (convertBase_valid _ _ _ b Hc Hwf Hb) as (i & f & Hf & Hconv & Hin).
    exists i, f. split_and!; [done|done|lia|lia|].
    intros j g Hg Hj. by eapply owner_unique.
  - intros ->. apply Hout.
    apply construct_inv in Hc as (_ & _ & Htot & _).
    unfold NavContext.getTotalBases. rewrite Htot. simpl. lia.
Qed.

Lemma convertBaseToFeatureCoordinate_owner_witness :
  NavContext.convertBaseToFeatureCoordinate exampleContext 30 = Throw RangeError.
Proof.
  assert (Forall wfFeature exampleFeatures) as Hwf.
  { repeat constructor; unfold wfFeature; vm_compute; discriminate. }
  apply (proj1 (proj2 (convertBaseToFeatureCoordinate_owner "ctx" exampleFeatures
                         exampleContext 30 eq_refl Hwf))).
  change (¬ (0 ≤ 30 < 30)). lia.
Defined.

(** ** NavigationContext: features in an interval *)

Lemma overlapping_elem qs qe incl features : ∀ total seg,
  seg ∈ overlapping qs qe incl features total ↔
  ∃ (i : nat) f,
    features !! i = Some f ∧ considered incl f = true ∧
    clipTo qs qe f (total + totalLength (take i features)) = Some seg.
Proof.
  induction features as [|f rest IH]; intros total seg; simpl.
  - split; [by intros ?%elem_of_nil|by intros (i & g & Hg & _)].
  - rewrite elem_of_app, IH. split.
    + intros [Hhead|(i & g & Hg & Hcons & Hclip)].
      * destruct (considered incl f) eqn:Hc; [|by apply elem_of_nil in Hhead].
        destruct (clipTo qs qe f total) as [s|] eqn:Hs; simpl in Hhead;
          [|by apply elem_of_nil in Hhead].
        apply list_elem_of_singleton in Hhead as ->.
        exists 0%nat, f. simpl. rewrite Z.add_0_r. done.
      * exists (S i), g. simpl. split_and!; [done..|].
        rewrite <- Hclip. f_equal. lia.
    + intros ([|i] & g & Hg & Hcons & Hclip); simpl in *.
      * simplify_eq. left. rewrite Hcons. rewrite Z.add_0_r in Hclip.
        rewrite Hclip. simpl. by left.
      * right. exists i, g. split_and!; [done..|].
        rewrite <- Hclip. f_equal. lia.
Qed.

Lemma overlapping_empty_query qs qe incl features : ∀ total,
  qe ≤ qs → overlapping qs qe incl features total = [].
Proof.
  induction features as [|f rest IH]; intros total Hq; simpl; [done|].
  rewrite IH by done. rewrite app_nil_r.
  destruct (considered incl f); [|done].
  unfold clipTo, OpenIntervalOps.getOverlap. simpl.
  by destruct (Z.ltb_spec (Z.max total qs) (Z.min (total + FeatureOps.getLength f) qe));
    [lia|].
Qed.

Lemma clipTo_bounds qs qe f s seg :
  clipTo qs qe f s = Some seg →
  feature seg = f ∧
  0 ≤ relativeStart seg < relativeEnd seg ∧ relativeEnd seg ≤ FeatureOps.getLength f ∧
  qs ≤ s + relativeStart seg ∧ s + relativeEnd seg ≤ qe.
Proof.
  unfold clipTo, OpenIntervalOps.getOverlap. simpl.
  destruct (Z.ltb_spec (Z.max s qs) (Z.min (s + FeatureOps.getLength f) qe));
    intros; simplify_eq; simpl. split_and!; try done; lia.
Qed.

(** Whatever the features are, the loop returns a prefix of the full
    answer: the early exit can only cut the tail. *)
Lemma featuresInIntervalLoop_prefix ctx qs qe incl features :
  ∀ total results,
  (∀ (j : nat) f, features !! j = Some f →
     _startCoordinateForFeature ctx !! handle f = offsetsFrom features total !! j) →
  ∃ found,
    NavContext.featuresInIntervalLoop ctx features (mkOpenInterval qs qe) incl results
    = Ok (results ++ found) ∧
    found `prefix_of` overlapping qs qe incl features total.
Proof.
  induction features as [|f rest IH]; intros total results Hget.
  - exists []. simpl. by rewrite app_nil_r.
  - assert (∀ (j : nat) g, rest !! j = Some g →
              _startCoordinateForFeature ctx !! handle g
              = offsetsFrom rest (total + FeatureOps.getLength f) !! j) as Hget'.
    { intros j g Hg. apply (Hget (S j) g Hg). }
    cbn [NavContext.featuresInIntervalLoop overlapping]. unfold considered at 1.
    destruct (negb incl && NavContext.isGapFeature f) eqn:Hskip; cbn [negb].
    { destruct (IH (total + FeatureOps.getLength f) results Hget') as (found & -> & Hp).
      by exists found. }
    unfold NavContext.getFeatureStart. rewrite (Hget 0%nat f eq_refl). simpl.
    unfold clipTo.
    destruct (OpenIntervalOps.getOverlap _ _) as [o|] eqn:Ho; simpl.
    + destruct (IH (total + FeatureOps.getLength f)
                  (results ++ [mkFeatureSegment f (start o - total) (end_ o - total)])
                  Hget') as (found & -> & Hp).
      exists (mkFeatureSegment f (start o - total) (end_ o - total) :: found).
      split; [by rewrite <- app_assoc|]. by apply prefix_cons.
    + destruct results as [|r results]; simpl.
      * destruct (IH (total + FeatureOps.getLength f) [] Hget') as (found & -> & Hp).
        by exists found.
      * exists []. split; [by rewrite app_nil_r|]. apply prefix_nil.
Qed.

(** X5.  For a query with [queryStart ≤ queryEnd] (the query interval is
    built first, and the class refuses an end below its start), the lookup
    in a constructed context returns, and what it returns is an initial
    part of the list of all overlaps of the considered features with the
    query, in feature order.  Every returned segment is a non-empty part
    of a feature of the context (never of a gap when gaps are excluded)
    that lies inside that feature and, in context coordinates, inside the
    query; a query of width zero finds nothing. *)
Theorem getFeaturesInInterval_sound (ctxName : string) (features : list Feature)
    (ctx : NavigationContext) (queryStart queryEnd : Z) (includeGaps : bool) :
  NavContext.construct ctxName features = Ok ctx →
  queryStart ≤ queryEnd →
  ∃ found,
    NavContext.getFeaturesInInterval ctx queryStart queryEnd includeGaps = Ok found ∧
    found `prefix_of` overlapping queryStart queryEnd includeGaps features 0 ∧
    (∀ seg, seg ∈ found →
       ∃ (i : nat) f,
         features !! i = Some f ∧ feature seg = f ∧
         (includeGaps = false → NavContext.isGapFeature f = false) ∧
         0 ≤ relativeStart seg < relativeEnd seg ∧
         relativeEnd seg ≤ FeatureOps.getLength f ∧
         queryStart ≤ totalLength (take i features) + relativeStart seg ∧
         totalLength (take i features) + relativeEnd seg ≤ queryEnd) ∧
    (queryStart = queryEnd → found = []).
Proof.
  intros Hc Hquery. apply construct_inv in Hc as (Hfs & _ & _ & _ & _ & Hget).
  destruct (featuresInIntervalLoop_prefix ctx queryStart queryEnd includeGaps
              features 0 [] Hget) as (found & Hrun & Hp).
  exists found. unfold NavContext.getFeaturesInInterval. rewrite Hfs.
  split; [done|]. split; [done|]. split.
  - intros seg Hseg.
    assert (seg ∈ overlapping queryStart queryEnd includeGaps features 0) as Hin.
    { destruct Hp as [k ->]. apply elem_of_app. by left. }
    apply overlapping_elem in Hin as (i & f & Hf & Hcons & Hclip).
    rewrite Z.add_0_l in Hclip. apply clipTo_bounds in Hclip.
    exists i, f. split_and!; try tauto; try lia.
    intros ->. unfold considered in Hcons. simpl in Hcons.
    by destruct (NavContext.isGapFeature f).
  - intros Hq. rewrite overlapping_empty_query in Hp by lia.
    by apply prefix_nil_inv in Hp.
Qed.

Lemma getFeaturesInInterval_sound_witness :
  ∃ found,
    NavContext.getFeaturesInInterval exampleContext 5 25 false = Ok found ∧
    found `prefix_of` overlapping 5 25 false exampleFeatures 0.
Proof.
  destruct (getFeaturesInInterval_sound "ctx" exampleFeatures exampleContext 5 25 false
              eq_refl ltac:(lia)) as (found & Hrun & Hp & _).
  exists found. exact (conj Hrun Hp).
Defined.



(** ** NavigationContext: genomic lookup *)

Lemma whole_getGenomeOverlap (f : Feature) (chrInterval : ChromosomeInterval) :
  FeatureSegmentOps.getGenomeOverlap (FeatureSegmentOps.whole f) chrInterval =
  if decide (chr (locus f) = chr chrInterval) then
    match OpenIntervalOps.getOverlap (locus f) chrInterval with
    | Some overlap =>
        Some (mkFeatureSegment f (start overlap - start (locus f))
                                 (end_ overlap - start (locus f)))
    | None => None
    end
  else None.
Proof.
  unfold FeatureSegmentOps.getGenomeOverlap, ChromosomeIntervalOps.getOverlap,
    FeatureSegmentOps.getLocus, FeatureSegmentOps.whole, FeatureOps.getLocus,
    FeatureOps.getLength, OpenIntervalOps.getLength, OpenIntervalOps.getOverlap.
  simpl. case_decide; [|done].
  replace (start (locus f) + 0) with (start (locus f)) by lia.
  replace (start (locus f) + (end_ (locus f) - start (locus f)))
    with (end_ (locus f)) by lia.
  by destruct (Z.max _ _ <? Z.min _ _).
Qed.

Lemma genomeIntervalLoop_filter ctx chrInterval features : ∀ total acc,
  (∀ (j : nat) f, features !! j = Some f →
     _startCoordinateForFeature ctx !! handle f = offsetsFrom features total !! j) →
  NavContext.genomeIntervalLoop ctx
    (filter (λ f, chr (FeatureOps.getLocus f) = chr chrInterval) features)
    chrInterval acc
  = Ok (acc ++ genomeHits chrInterval features total).
Proof.
  induction features as [|f rest IH]; intros total acc Hget.
  - simpl. by rewrite app_nil_r.
  - assert (∀ (j : nat) g, rest !! j = Some g →
              _startCoordinateForFeature ctx !! handle g
              = offsetsFrom rest (total + FeatureOps.getLength f) !! j) as Hget'.
    { intros j g Hg. apply (Hget (S j) g Hg). }
    rewrite filter_cons. cbn [genomeHits]. unfold genomeClip at 1.
    unfold FeatureOps.getLocus at 1.
    destruct (decide (chr (locus f) = chr chrInterval)) as [Hchr|Hchr].
    + cbn [NavContext.genomeIntervalLoop]. rewrite whole_getGenomeOverlap.
      rewrite decide_True by done.
      destruct (OpenIntervalOps.getOverlap (locus f) chrInterval) as [o|]; simpl.
      * unfold NavContext.convertFeatureSegmentToContextCoordinates,
          NavContext.getFeatureStart. simpl.
        rewrite (Hget 0%nat f eq_refl). simpl.
        rewrite (IH _ _ Hget'). by rewrite <- app_assoc.
      * by rewrite (IH _ _ Hget').
    + simpl. by rewrite (IH _ _ Hget').
Qed.

Lemma convertGenomeIntervalToBases_hits ctxName features ctx chrInterval :
  NavContext.construct ctxName features = Ok ctx →
  plainChr features (chr chrInterval) →
  NavContext.convertGenomeIntervalToBases ctx chrInterval
  = Ok (genomeHits chrInterval features 0).
Proof.
  intros Hc Hplain.
  rewrite (proj1 (convertGenomeIntervalToBases_read _ _ _ chrInterval Hc) Hplain).
  apply construct_inv in Hc as (_ & _ & _ & _ & _ & Hget).
  by rewrite (genomeIntervalLoop_filter ctx chrInterval features 0 []).
Qed.

Lemma genomeHits_elem chrInterval features : ∀ total iv,
  iv ∈ genomeHits chrInterval features total ↔
  ∃ (i : nat) f,
    features !! i = Some f ∧
    genomeClip chrInterval f (total + totalLength (take i features)) = Some iv.
Proof.
  induction features as [|f rest IH]; intros total iv; simpl.
  - split; [by intros ?%elem_of_nil|by intros (i & g & Hg & _)].
  - rewrite elem_of_app, IH. split.
    + intros [Hhead|(i & g & Hg & Hclip)].
      * destruct (genomeClip chrInterval f total) as [x|] eqn:Hx; simpl in Hhead;
          [|by apply elem_of_nil in Hhead].
        apply list_elem_of_singleton in Hhead as ->.
        exists 0%nat, f. simpl. by rewrite Z.add_0_r.
      * exists (S i), g. simpl. split; [done|].
        rewrite <- Hclip. f_equal. lia.
    + intros ([|i] & g & Hg & Hclip); simpl in *.
      * simplify_eq. left. rewrite Z.add_0_r in Hclip. rewrite Hclip. by left.
      * right. exists i, g. split; [done|]. rewrite <- Hclip. f_equal. lia.
Qed.

Lemma genomeClip_bounds chrInterval f s iv :
  genomeClip chrInterval f s = Some iv →
  chr (locus f) = chr chrInterval ∧
  s ≤ start iv < end_ iv ∧ end_ iv ≤ s + FeatureOps.getLength f ∧
  OpenIntervalOps.getLength iv ≤ OpenIntervalOps.getLength chrInterval ∧
  start (locus f) + (start iv - s) = Z.max (start (locus f)) (start chrInterval) ∧
  start (locus f) + (end_ iv - s) = Z.min (end_ (locus f)) (end_ chrInterval).
Proof.
  unfold genomeClip, OpenIntervalOps.getOverlap, FeatureOps.getLength,
    OpenIntervalOps.getLength.
  case_decide; [|done].
  destruct (Z.ltb_spec (Z.max (start (locus f)) (start chrInterval))
                       (Z.min (end_ (locus f)) (end_ chrInterval)));
    intros; simplify_eq; simpl. split_and!; try done; lia.
Qed.

(** X7.  Genomic lookup in a constructed context, for a locus whose
    chromosome is a chromosome of the context or names no inherited
    property of a plain object, returns, in feature order, one context
    interval for each feature on that chromosome whose own locus overlaps
    the locus: the overlap, carried to context coordinates.  Each returned
    interval is non-empty, lies inside the context span of its feature, is
    no longer than the locus, and corresponds to the genomic range
    [max of the starts, min of the ends); the result is empty when no
    feature is on the chromosome.  For the name of an inherited property
    (such as "constructor") that is no chromosome of the context, the
    lookup throws a TypeError. *)
Theorem convertGenomeIntervalToBases_spec (ctxName : string)
    (features : list Feature) (ctx : NavigationContext)
    (chrInterval : ChromosomeInterval) :
  NavContext.construct ctxName features = Ok ctx →
  (plainChr features (chr chrInterval) →
     ∃ intervals,
       NavContext.convertGenomeIntervalToBases ctx chrInterval = Ok intervals ∧
       intervals = genomeHits chrInterval features 0 ∧
       (∀ iv, iv ∈ intervals ↔
          ∃ (i : nat) f,
            features !! i = Some f ∧
            genomeClip chrInterval f (totalLength (take i features)) = Some iv) ∧
       (∀ iv, iv ∈ intervals →
          ∃ (i : nat) f,
            features !! i = Some f ∧ chr (locus f) = chr chrInterval ∧
            totalLength (take i features) ≤ start iv < end_ iv ∧
            end_ iv ≤ totalLength (take i features) + FeatureOps.getLength f ∧
            OpenIntervalOps.getLength iv ≤ OpenIntervalOps.getLength chrInterval ∧
            start (locus f) + (start iv - totalLength (take i features))
              = Z.max (start (locus f)) (start chrInterval) ∧
            start (locus f) + (end_ iv - totalLength (take i features))
              = Z.min (end_ (locus f)) (end_ chrInterval)) ∧
       ((∀ f, f ∈ features → chr (locus f) ≠ chr chrInterval) → intervals = [])) ∧
  (¬ plainChr features (chr chrInterval) →
     NavContext.convertGenomeIntervalToBases ctx chrInterval = Throw TypeError).
Proof.
  intros Hc. split;
    [|apply (proj2 (convertGenomeIntervalToBases_read _ _ _ chrInterval Hc))].
  intros Hplain.
  eexists. split; [by eapply convertGenomeIntervalToBases_hits|].
  split; [done|].
  assert (∀ iv, iv ∈ genomeHits chrInterval features 0 ↔
            ∃ (i : nat) f, features !! i = Some f ∧
              genomeClip chrInterval f (totalLength (take i features)) = Some iv) as Hel.
  { intros iv. rewrite genomeHits_elem. by setoid_rewrite Z.add_0_l. }
  split; [exact Hel|]. split.
  - intros iv (i & f & Hf & Hclip)%Hel. exists i, f.
    apply genomeClip_bounds in Hclip. tauto.
  - intros Hnone.
    destruct (genomeHits chrInterval features 0) as [|iv rest] eqn:E; [done|].
    exfalso. destruct (proj1 (Hel iv) ltac:(left)) as (i & f & Hf & Hclip).
    apply genomeClip_bounds in Hclip as [Hchr _].
    by apply (Hnone f); [eapply list_elem_of_lookup_2|].
Qed.

Lemma convertGenomeIntervalToBases_spec_witness :
  NavContext.convertGenomeIntervalToBases exampleContext
    (mkChromosomeInterval "chr1" (mkOpenInterval 5 25))
  = Ok [mkOpenInterval 5 10; mkOpenInterval 20 25] ∧
  NavContext.convertGenomeIntervalToBases exampleContext
    (mkChromosomeInterval "toString" (mkOpenInterval 5 25))
  = Throw TypeError.
Proof.
  split.
  - destruct (proj1 (convertGenomeIntervalToBases_spec "ctx" exampleFeatures
                       exampleContext
                       (mkChromosomeInterval "chr1" (mkOpenInterval 5 25)) eq_refl))
      as (intervals & Hrun & -> & _).
    + left. simpl. solve_not_elem.
    + exact Hrun.
  - apply (proj2 (convertGenomeIntervalToBases_spec "ctx" exampleFeatures
                    exampleContext
                    (mkChromosomeInterval "toString" (mkOpenInterval 5 25)) eq_refl)).
    intros [Hplain|(f & Hf & Hchr)].
    + apply Hplain. simpl. unfold objectPrototypeKeys. right. left.
    + unfold exampleFeatures in Hf. simpl in Hchr.
      repeat (apply elem_of_cons in Hf as [->|Hf]; [discriminate Hchr|]).
      by apply elem_of_nil in Hf.
Defined.

(** X8.  Looking up the locus of a non-empty feature of the context finds
    the feature's whole context span [start, start + length). *)
Theorem convertGenomeIntervalToBases_own_locus (ctxName : string)
    (features : list Feature) (ctx : NavigationContext) (i : nat) (f : Feature) :
  NavContext.construct ctxName features = Ok ctx →
  features !! i = Some f →
  0 < FeatureOps.getLength f →
  ∃ intervals,
    NavContext.convertGenomeIntervalToBases ctx (FeatureOps.getLocus f) = Ok intervals ∧
    mkOpenInterval (totalLength (take i features))
                   (totalLength (take i features) + FeatureOps.getLength f) ∈ intervals.
Proof.
  intros Hc Hf Hlen.
  exists (genomeHits (FeatureOps.getLocus f) features 0).
  split.
  { eapply convertGenomeIntervalToBases_hits; [done|].
    right. exists f. split; [by eapply list_elem_of_lookup_2|done]. }
  apply genomeHits_elem. exists i, f. split; [done|]. rewrite Z.add_0_l.
  unfold genomeClip, FeatureOps.getLocus, OpenIntervalOps.getOverlap.
  unfold FeatureOps.getLength, OpenIntervalOps.getLength in *.
  rewrite decide_True by done.
  destruct (Z.ltb_spec (Z.max (start (locus f)) (start (locus f)))
                       (Z.min (end_ (locus f)) (end_ (locus f)))); [|lia].
  simpl. do 2 f_equal; lia.
Qed.

Lemma convertGenomeIntervalToBases_own_locus_witness :
  ∃ intervals,
    NavContext.convertGenomeIntervalToBases exampleContext
      (mkChromosomeInterval "chr1" (mkOpenInterval 20 30)) = Ok intervals ∧
    mkOpenInterval 20 30 ∈ intervals.
Proof.
  apply (convertGenomeIntervalToBases_own_locus "ctx" exampleFeatures exampleContext
           2%nat (mkFeature 3 "f2" (mkChromosomeInterval "chr1" (mkOpenInterval 20 30))));
    [reflexivity|reflexivity|vm_compute; reflexivity].
Defined.

(** X9.  Context → genome → context: the genomic position of a valid base
    (the locus of its feature coordinate), widened to one base, is found
    again at that base by the genomic lookup. *)
Theorem base_genome_base_roundtrip (ctxName : string) (features : list Feature)
    (ctx : NavigationContext) (b : Z) :
  NavContext.construct ctxName features = Ok ctx →
  Forall wfFeature features →
  0 ≤ b < NavContext.getTotalBases ctx →
  ∃ seg intervals,
    NavContext.convertBaseToFeatureCoordinate ctx b = Ok seg ∧
    NavContext.convertGenomeIntervalToBases ctx
      (mkChromosomeInterval (chr (FeatureSegmentOps.getLocus seg))
         (mkOpenInterval (start (FeatureSegmentOps.getLocus seg))
                         (start (FeatureSegmentOps.getLocus seg) + 1)))
    = Ok intervals ∧
    mkOpenInterval b (b + 1) ∈ intervals.
Proof.
  intros Hc Hwf Hb.
  destruct (convertBase_valid _ _ _ b Hc Hwf Hb) as (i & f & Hf & Hconv & Hin).
  eexists. rewrite Hconv.
  set (seg := mkFeatureSegment f _ _).
  eexists. split; [done|].
  split.
  { eapply convertGenomeIntervalToBases_hits; [done|].
    right. exists f. split; [by eapply list_elem_of_lookup_2|done]. }
  apply genomeHits_elem. exists i, f. split; [done|]. rewrite Z.add_0_l.
  unfold genomeClip, OpenIntervalOps.getOverlap, seg, FeatureSegmentOps.getLocus,
    FeatureOps.getLocus. simpl.
  unfold FeatureOps.getLength, OpenIntervalOps.getLength in Hin.
  rewrite decide_True by done.
  set (g := start (locus f) + (b - totalLength (take i features))).
  destruct (Z.ltb_spec (Z.max (start (locus f)) g) (Z.min (end_ (locus f)) (g + 1)));
    [|lia].
  simpl. do 2 f_equal; lia.
Qed.

Lemma base_genome_base_roundtrip_witness :
  ∃ seg intervals,
    NavContext.convertBaseToFeatureCoordinate exampleContext 25 = Ok seg ∧
    NavContext.convertGenomeIntervalToBases exampleContext
      (mkChromosomeInterval (chr (FeatureSegmentOps.getLocus seg))
         (mkOpenInterval (start (FeatureSegmentOps.getLocus seg))
                         (start (FeatureSegmentOps.getLocus seg) + 1)))
    = Ok intervals ∧
    mkOpenInterval 25 26 ∈ intervals.
Proof.
  apply (base_genome_base_roundtrip "ctx" exampleFeatures exampleContext 25 eq_refl).
  - repeat constructor; unfold wfFeature; vm_compute; discriminate.
  - change (0 ≤ 25 < 30). lia.
Defined.

(** ** NavigationContext: more on gapless coordinates *)

Lemma totalLength_filter_le (P : Feature → Prop) `{!∀ f, Decision (P f)} features :
  Forall wfFeature features →
  0 ≤ totalLength (filter P features) ≤ totalLength features.
Proof.
  induction 1 as [|f rest Hf Hwf IH]; simpl; [lia|].
  unfold wfFeature in Hf. rewrite filter_cons. case_decide; simpl; lia.
Qed.

Lemma gapLengthBefore_bounds features (i : nat) :
  Forall wfFeature features →
  0 ≤ gapLengthBefore features i ≤ totalLength (take i features).
Proof.
  intros Hwf. unfold gapLengthBefore.
  apply totalLength_filter_le. by apply Forall_take.
Qed.

(** X10.  Inside an ordinary feature [toGaplessCoordinate] is a shift by
    the gap length before the feature, so distances are kept; all bases of
    a gap feature collapse to one coordinate, that of the gap's start.  The
    result is never negative and never exceeds the base. *)
Theorem toGaplessCoordinate_shape (ctxName : string) (features : list Feature)
    (ctx : NavigationContext) (i : nat) (f : Feature) (b : Z) :
  NavContext.construct ctxName features = Ok ctx →
  Forall wfFeature features →
  features !! i = Some f →
  totalLength (take i features) ≤ b <
    totalLength (take i features) + FeatureOps.getLength f →
  ∃ g,
    NavContext.toGaplessCoordinate ctx b = Ok g ∧
    g = (if NavContext.isGapFeature f
         then totalLength (take i features) - gapLengthBefore features i
         else b - gapLengthBefore features i) ∧
    0 ≤ g ≤ b.
Proof.
  intros Hc Hwf Hf Hin.
  assert (0 ≤ b < NavContext.getTotalBases ctx) as Hb.
  { pose proof Hc as Hc'. apply construct_inv in Hc' as (_ & _ & Htot & _).
    unfold NavContext.getTotalBases. rewrite Htot.
    pose proof (totalLength_nonneg (take i features) ltac:(by apply Forall_take)).
    pose proof (lookup_lt_Some _ _ _ Hf) as Hlt.
    assert (S i ≤ length features)%nat as Hle by lia.
    pose proof (totalLength_take_mono features (S i) (length features) Hwf Hle) as Hm.
    rewrite (totalLength_take_S _ _ _ Hf), (take_ge features (length features)) in Hm
      by lia.
    lia. }
  destruct (toGaplessCoordinate_general _ _ _ b Hc Hwf Hb) as (j & g & Hg & Hj & Hrun).
  assert (j = i) as -> by (by eapply owner_unique).
  simplify_eq. eexists. split; [exact Hrun|].
  pose proof (gapLengthBefore_bounds features i Hwf).
  destruct (NavContext.isGapFeature f); split; lia.
Qed.

Lemma toGaplessCoordinate_shape_witness :
  ∃ g, NavContext.toGaplessCoordinate exampleContext 17 = Ok g ∧
       g = 10 - gapLengthBefore exampleFeatures 1 ∧ 0 ≤ g ≤ 17.
Proof.
  apply (toGaplessCoordinate_shape "ctx" exampleFeatures exampleContext 1%nat
           (NavContext.makeGap 2 10 "Gap") 17 eq_refl).
  - repeat constructor; unfold wfFeature; vm_compute; discriminate.
  - reflexivity.
  - vm_compute. split; [discriminate|reflexivity].
Defined.

(** X11.  In a context without gap features [toGaplessCoordinate] is the
    identity on valid bases. *)
Theorem toGaplessCoordinate_no_gaps (ctxName : string) (features : list Feature)
    (ctx : NavigationContext) (b : Z) :
  NavContext.construct ctxName features = Ok ctx →
  Forall wfFeature features →
  Forall (λ f, NavContext.isGapFeature f = false) features →
  0 ≤ b < NavContext.getTotalBases ctx →
  NavContext.toGaplessCoordinate ctx b = Ok b.
Proof.
  intros Hc Hwf Hnogap Hb.
  destruct (toGaplessCoordinate_general _ _ _ b Hc Hwf Hb) as (i & f & Hf & Hin & ->).
  assert (gapLengthBefore features i = 0) as ->.
  { unfold gapLengthBefore.
    assert (Forall (λ f, NavContext.isGapFeature f = false) (take i features)) as Ht
      by (by apply Forall_take).
    clear -Ht. induction Ht as [|g rest Hg _ IH]; [done|].
    rewrite filter_cons. rewrite decide_False by congruence. exact IH. }
  rewrite Forall_forall in Hnogap.
  rewrite (Hnogap f) by (by eapply list_elem_of_lookup_2).
  f_equal. lia.
Qed.

Lemma toGaplessCoordinate_no_gaps_witness :
  ∃ ctx, NavContext.construct "ctx" sameNameFeatures = Ok ctx ∧
         NavContext.toGaplessCoordinate ctx 15 = Ok 15.
Proof.
  eexists. split; [reflexivity|].
  eapply (toGaplessCoordinate_no_gaps "ctx" sameNameFeatures); [reflexivity|..].
  - repeat constructor; unfold wfFeature; vm_compute; discriminate.
  - repeat constructor.
  - vm_compute. split; [discriminate|reflexivity].
Defined.

(** ** FeaturePlacer: visible parts and feature placement *)

Lemma getVisibleSegment_valid ctxName features ctx (g : Feature) (cl : OpenInterval) :
  NavContext.construct ctxName features = Ok ctx →
  Forall wfFeature features →
  0 ≤ start cl < NavContext.getTotalBases ctx →
  ∃ (i : nat) f,
    features !! i = Some f ∧
    totalLength (take i features) ≤ start cl <
      totalLength (take i features) + FeatureOps.getLength f ∧
    FeaturePlacer._getVisibleSegment g ctx cl =
      Ok (mkFeatureSegment g
            (Z.max 0 (start (locus f) + (start cl - totalLength (take i features))
                      - start (locus g)))
            (Z.max 0 (start (locus f) + (start cl - totalLength (take i features))
                      - start (locus g))
             + OpenIntervalOps.getLength cl)).
Proof.
  intros Hc Hwf Hb.
  destruct (convertBase_valid _ _ _ (start cl) Hc Hwf Hb) as (i & f & Hf & Hconv & Hin).
  exists i, f. split; [done|]. split; [done|].
  unfold FeaturePlacer._getVisibleSegment. rewrite Hconv. reflexivity.
Qed.

(** X12.  [_getVisibleSegment] throws a RangeError when the context
    location does not start at a valid base.  When it does, the start is
    converted to a position in some feature of the context; and if the
    location is well formed and the segment it asks for ends inside the
    given feature (what the FeatureSegment class requires of its
    arguments), the call returns a segment of the given feature that is as
    long as the context location, lies inside the feature, and starts at a
    non-negative offset: the distance from the feature's genomic start to
    the genomic position of the location's start, or 0 when that position
    lies before the feature. *)
Theorem getVisibleSegment_spec (ctxName : string) (features : list Feature)
    (ctx : NavigationContext) (g : Feature) (cl : OpenInterval) :
  NavContext.construct ctxName features = Ok ctx →
  Forall wfFeature features →
  (0 ≤ start cl < NavContext.getTotalBases ctx →
     ∃ placed,
       NavContext.convertBaseToFeatureCoordinate ctx (start cl) = Ok placed ∧
       (start cl ≤ end_ cl →
        Z.max 0 (start (FeatureSegmentOps.getLocus placed) - start (locus g))
          + OpenIntervalOps.getLength cl ≤ FeatureOps.getLength g →
        ∃ seg,
          FeaturePlacer._getVisibleSegment g ctx cl = Ok seg ∧
          feature seg = g ∧
          0 ≤ relativeStart seg ≤ relativeEnd seg ∧
          relativeEnd seg ≤ FeatureOps.getLength g ∧
          FeatureSegmentOps.getLength seg = OpenIntervalOps.getLength cl ∧
          start (FeatureSegmentOps.getLocus seg) =
            Z.max (start (locus g)) (start (FeatureSegmentOps.getLocus placed)))) ∧
  (¬ (0 ≤ start cl < NavContext.getTotalBases ctx) →
     FeaturePlacer._getVisibleSegment g ctx cl = Throw RangeError).
Proof.
  intros Hc Hwf. split.
  - intros Hb.
    destruct (convertBase_valid _ _ _ (start cl) Hc Hwf Hb) as (i & f & Hf & Hconv & Hin).
    eexists. split; [exact Hconv|]. intros Hcl Hfit.
    eexists. unfold FeaturePlacer._getVisibleSegment. rewrite Hconv.
    split; [reflexivity|].
    revert Hfit.
    unfold FeatureSegmentOps.getLength, FeatureSegmentOps.getLocus, FeatureOps.getLocus,
      OpenIntervalOps.getLength.
    simpl. intros Hfit. split_and!; [done|lia|lia|lia|lia|lia].
  - intros Hb. unfold FeaturePlacer._getVisibleSegment.
    by rewrite (convertBase_invalid ctx (start cl) Hb).
Qed.

Lemma getVisibleSegment_spec_witness :
  FeaturePlacer._getVisibleSegment
    (mkFeature 9 "gene" (mkChromosomeInterval "chr1" (mkOpenInterval 2 28)))
    exampleContext (mkOpenInterval 22 25)
  = Ok (mkFeatureSegment
          (mkFeature 9 "gene" (mkChromosomeInterval "chr1" (mkOpenInterval 2 28))) 20 23) ∧
  FeaturePlacer._getVisibleSegment
    (mkFeature 9 "gene" (mkChromosomeInterval "chr1" (mkOpenInterval 2 28)))
    exampleContext (mkOpenInterval 30 35) = Throw RangeError.
Proof.
  assert (Forall wfFeature exampleFeatures) as Hwf.
  { repeat constructor; unfold wfFeature; vm_compute; discriminate. }
  split.
  - destruct (proj1 (getVisibleSegment_spec "ctx" exampleFeatures exampleContext
                       (mkFeature 9 "gene" (mkChromosomeInterval "chr1" (mkOpenInterval 2 28)))
                       (mkOpenInterval 22 25) eq_refl Hwf))
      as (placed & Hconv & Hseg).
    + change (0 ≤ 22 < 30). lia.
    + vm_compute in Hconv. injection Hconv as <-.
      destruct Hseg as (seg & Hrun & _).
      * simpl. lia.
      * vm_compute. discriminate.
      * rewrite Hrun. f_equal. vm_compute in Hrun. by injection Hrun as <-.
  - apply (proj2 (getVisibleSegment_spec "ctx" exampleFeatures exampleContext
                    (mkFeature 9 "gene" (mkChromosomeInterval "chr1" (mkOpenInterval 2 28)))
                    (mkOpenInterval 30 35) eq_refl Hwf)).
    change (¬ (0 ≤ 30 < 30)). lia.
Defined.



Lemma getOverlap_inside (i other o : OpenInterval) :
  OpenIntervalOps.getOverlap i other = Some o →
  start o = Z.max (start i) (start other) ∧ end_ o = Z.min (end_ i) (end_ other) ∧
  start o < end_ o.
Proof.
  unfold OpenIntervalOps.getOverlap.
  destruct (Z.ltb_spec (Z.max (start i) (start other)) (Z.min (end_ i) (end_ other)));
    intros; simplify_eq; simpl; lia.
Qed.

Section PlaceFeaturesFacts.
Variable newLinearDrawingModel : DisplayedRegionModel → num → LinearDrawingModel.
Variable computeNavContextCoordinates :
  Feature → NavigationContext → result (list OpenInterval).
Variable ctxName : string.
Variable ctxFeatures : list Feature.
Variable viewRegion : DisplayedRegionModel.
Hypothesis Hctx :
  NavContext.construct ctxName ctxFeatures = Ok (getNavigationContext viewRegion).
Hypothesis Hwf : Forall wfFeature ctxFeatures.
Hypothesis Hview : viewInsideContext viewRegion.

Lemma placementOf_inside dm f location placed :
  placementOf dm viewRegion f location = Some placed →
  placedFeature_feature placed = f ∧
  feature (visiblePart placed) = f ∧
  OpenIntervalOps.getOverlap location (getContextCoordinates viewRegion)
    = Some (contextLocation placed) ∧
  xSpan placed = baseSpanToXSpan dm (contextLocation placed) ∧
  0 ≤ relativeStart (visiblePart placed) ∧
  FeatureSegmentOps.getLength (visiblePart placed)
    = OpenIntervalOps.getLength (contextLocation placed).
Proof.
  unfold placementOf.
  destruct (OpenIntervalOps.getOverlap location _) as [cl|] eqn:Hcl; [|done].
  destruct (FeaturePlacer._getVisibleSegment f _ cl) as [seg|e] eqn:Hseg; [|done].
  intros; simplify_eq. simpl.
  unfold FeaturePlacer._getVisibleSegment in Hseg.
  destruct (NavContext.convertBaseToFeatureCoordinate _ _) as [p|]; simpl in Hseg;
    [|done].
  simplify_eq. unfold FeatureSegmentOps.getLength. simpl.
  split_and!; try done; lia.
Qed.

Lemma locationsLoop_spec dm f (locations : list OpenInterval) : ∀ placements,
  FeaturePlacer.locationsLoop dm (getContextCoordinates viewRegion)
    (getNavigationContext viewRegion) f locations placements
  = Ok (placements ++ omap (placementOf dm viewRegion f) locations).
Proof.
  induction locations as [|location rest IH]; intros placements; simpl.
  - by rewrite app_nil_r.
  - unfold placementOf at 1.
    destruct (OpenIntervalOps.getOverlap location _) as [cl|] eqn:Hcl; [|apply IH].
    apply getOverlap_inside in Hcl as (Hs & He & Hne).
    destruct Hview as [Hv0 Hv1].
    destruct (getVisibleSegment_valid ctxName ctxFeatures _ f cl Hctx Hwf)
      as (i & g & _ & _ & ->); [lia|].
    simpl. rewrite IH. by rewrite <- app_assoc.
Qed.

Lemma featuresLoop_spec dm (features : list Feature) : ∀ placements,
  (∀ f, f ∈ features →
     ∃ l, computeNavContextCoordinates f (getNavigationContext viewRegion) = Ok l) →
  FeaturePlacer.featuresLoop computeNavContextCoordinates dm
    (getContextCoordinates viewRegion) (getNavigationContext viewRegion)
    features placements
  = Ok (placements ++
        (features ≫= λ f,
           omap (placementOf dm viewRegion f)
                (okList (computeNavContextCoordinates f
                           (getNavigationContext viewRegion))))).
Proof.
  induction features as [|f rest IH]; intros placements Hok.
  - simpl. by rewrite app_nil_r.
  - destruct (Hok f ltac:(left)) as [l Hl].
    cbn [FeaturePlacer.featuresLoop]. rewrite bind_cons, Hl. simpl.
    rewrite locationsLoop_spec. simpl.
    rewrite IH; [by rewrite <- app_assoc|].
    intros g Hg. apply Hok. by right.
Qed.
End PlaceFeaturesFacts.



(** ** FeaturePlacer: segments stay inside their parent *)

Lemma segment_getOverlap_inside (s other v : FeatureSegment) :
  FeatureSegmentOps.getOverlap s other = Some v →
  feature v = feature s ∧ handle (feature s) = handle (feature other) ∧
  relativeStart v = Z.max (relativeStart s) (relativeStart other) ∧
  relativeEnd v = Z.min (relativeEnd s) (relativeEnd other) ∧
  relativeStart v < relativeEnd v.
Proof.
  unfold FeatureSegmentOps.getOverlap. case_decide; [|done].
  destruct (OpenIntervalOps.getOverlap _ _) as [o|] eqn:Ho; [|done].
  intros; simplify_eq. apply getOverlap_inside in Ho. simpl in *.
  split_and!; try done; lia.
Qed.

Lemma scaled_nonneg (x0 x1 : Q) (k len L : Z) :
  0 < L → 0 ≤ k → 0 ≤ len → (x0 <= x1)%Q →
  let p := ((x1 - x0) / inject_Z L)%Q in
  (x0 <= x0 + inject_Z k * p)%Q ∧
  (x0 + inject_Z k * p <= x0 + inject_Z k * p + inject_Z len * p)%Q.
Proof.
  intros HL Hk Hlen Hx p.
  pose proof (pixelsPerBase_nonneg x0 x1 L HL Hx) as Hp. fold p in Hp.
  pose proof (inject_Z_nonneg k Hk) as Hkq.
  pose proof (inject_Z_nonneg len Hlen) as Hlq.
  pose proof (Qmult_le_0_compat _ _ Hkq Hp) as Hkp.
  pose proof (Qmult_le_0_compat _ _ Hlq Hp) as Hlp.
  split; lra.
Qed.

(** X15.  Every placed segment is the overlap of an input segment with
    the visible part of the parent and lies inside the visible part; its
    pixel span does not start left of the parent's span and does not end
    before it starts. *)
Theorem placeFeatureSegments_inside_visible_part (placedFeature : PlacedFeature)
    (x0 x1 : Q) (segments : list FeatureSegment) :
  0 < OpenIntervalOps.getLength (contextLocation placedFeature) →
  xSpan placedFeature = mkXSpan (Fin x0) (Fin x1) →
  (x0 <= x1)%Q →
  ∀ placed, placed ∈ FeaturePlacer.placeFeatureSegments placedFeature segments →
    ∃ s a b,
      s ∈ segments ∧
      FeatureSegmentOps.getOverlap s (visiblePart placedFeature) = Some (segment placed) ∧
      relativeStart (visiblePart placedFeature) ≤ relativeStart (segment placed) ∧
      relativeStart (segment placed) < relativeEnd (segment placed) ∧
      relativeEnd (segment placed) ≤ relativeEnd (visiblePart placedFeature) ∧
      segment_xSpan placed = mkXSpan (Fin a) (Fin b) ∧
      (x0 <= a)%Q ∧ (a <= b)%Q.
Proof.
  intros HL Hx Hle placed Hin.
  rewrite (placeFeatureSegments_fold _ x0 x1) in Hin by done.
  apply list_elem_of_omap in Hin as (s & Hs & Hplaced).
  unfold placedSegmentOf in Hplaced.
  destruct (FeatureSegmentOps.getOverlap s (visiblePart placedFeature)) as [v|] eqn:Hv;
    [|done].
  simplify_eq. simpl.
  pose proof (segment_getOverlap_inside _ _ _ Hv) as (_ & _ & Hrs & Hre & Hne).
  unfold FeatureSegmentOps.getLength in *.
  destruct (scaled_nonneg x0 x1
              (relativeStart v - relativeStart (visiblePart placedFeature))
              (relativeEnd v - relativeStart v)
              (OpenIntervalOps.getLength (contextLocation placedFeature)))
    as (Ha & Hab); try done; try lia.
  eexists s, _, _. split_and!; try done; try lia.
Qed.

Lemma placeFeatureSegments_inside_visible_part_witness :
  let f := mkFeature 1 "f1" (mkChromosomeInterval "chr1" (mkOpenInterval 0 10)) in
  let placedFeature :=
    mkPlacedFeature f (mkFeatureSegment f 2 8) (mkOpenInterval 2 8)
      (mkXSpan (Fin 0) (Fin 3)) in
  Forall (λ placed,
      ∃ s a b,
        s ∈ [mkFeatureSegment f 0 1; mkFeatureSegment f 4 12] ∧
        FeatureSegmentOps.getOverlap s (visiblePart placedFeature) = Some (segment placed) ∧
        relativeStart (visiblePart placedFeature) ≤ relativeStart (segment placed) ∧
        relativeStart (segment placed) < relativeEnd (segment placed) ∧
        relativeEnd (segment placed) ≤ relativeEnd (visiblePart placedFeature) ∧
        segment_xSpan placed = mkXSpan (Fin a) (Fin b) ∧
        (0 <= a)%Q ∧ (a <= b)%Q)
    (FeaturePlacer.placeFeatureSegments placedFeature
       [mkFeatureSegment f 0 1; mkFeatureSegment f 4 12]).
Proof.
  intros f placedFeature. apply Forall_forall.
  apply (placeFeatureSegments_inside_visible_part placedFeature 0 3);
    [reflexivity|reflexivity|unfold Qle; simpl; lia].
Defined.

(** ** PlacedInteraction: width *)

(** X16.  For two finite, well-formed pixel spans, a placed interaction
    keeps the span with the smaller start as [xSpan1] and the other as
    [xSpan2], and its width is finite and non-negative. *)
Theorem getWidth_nonneg (it : GenomeInteraction) (a0 a1 b0 b1 : Q) :
  (a0 <= a1)%Q → (b0 <= b1)%Q →
  let placed := newPlacedInteraction it (mkXSpan (Fin a0) (Fin a1))
                                        (mkXSpan (Fin b0) (Fin b1)) in
  ∃ s t w,
    xstart (xSpan1 placed) = Fin s ∧
    xstart (xSpan2 placed) = Fin t ∧
    (s <= t)%Q ∧
    ((xSpan1 placed = mkXSpan (Fin a0) (Fin a1) ∧ xSpan2 placed = mkXSpan (Fin b0) (Fin b1)) ∨
     (xSpan1 placed = mkXSpan (Fin b0) (Fin b1) ∧ xSpan2 placed = mkXSpan (Fin a0) (Fin a1))) ∧
    PlacedInteraction_getWidth placed = Fin w ∧
    (0 <= w)%Q.
Proof.
  intros Ha Hb placed. subst placed.
  unfold newPlacedInteraction, PlacedInteraction_getWidth, Num.max, Num.sub, Num.leb.
  cbn [xstart xend].
  destruct (Qcompare_spec a0 b0) as [H0|H0|H0]; cbn [xSpan1 xSpan2 xstart xend];
    destruct (Qcompare_spec a1 b1) as [H1|H1|H1];
    destruct (Qcompare_spec b1 a1) as [H2|H2|H2];
    cbn [Num.add Num.neg]; try (exfalso; lra);
    eexists _, _, _; (split; [reflexivity|]); (split; [reflexivity|]);
    (split; [lra|]);
    (split; [first [by left | by right]|]);
    (split; [reflexivity|]); lra.
Qed.

Lemma getWidth_nonneg_witness :
  ∃ s t w,
    xstart (xSpan1 (newPlacedInteraction
                      (mkGenomeInteraction (mkChromosomeInterval "chr1" (mkOpenInterval 0 1))
                                           (mkChromosomeInterval "chr1" (mkOpenInterval 5 6)))
                      (mkXSpan (Fin 5) (Fin 6)) (mkXSpan (Fin 0) (Fin 1)))) = Fin s ∧
    xstart (xSpan2 (newPlacedInteraction
                      (mkGenomeInteraction (mkChromosomeInterval "chr1" (mkOpenInterval 0 1))
                                           (mkChromosomeInterval "chr1" (mkOpenInterval 5 6)))
                      (mkXSpan (Fin 5) (Fin 6)) (mkXSpan (Fin 0) (Fin 1)))) = Fin t ∧
    (s <= t)%Q ∧
    PlacedInteraction_getWidth
      (newPlacedInteraction
         (mkGenomeInteraction (mkChromosomeInterval "chr1" (mkOpenInterval 0 1))
                              (mkChromosomeInterval "chr1" (mkOpenInterval 5 6)))
         (mkXSpan (Fin 5) (Fin 6)) (mkXSpan (Fin 0) (Fin 1))) = Fin w ∧
    (0 <= w)%Q.
Proof.
  destruct (getWidth_nonneg
              (mkGenomeInteraction (mkChromosomeInterval "chr1" (mkOpenInterval 0 1))
                                   (mkChromosomeInterval "chr1" (mkOpenInterval 5 6)))
              5 6 0 1) as (s & t & w & Hs & Ht & Hst & _ & Hw & Hpos).
  - unfold Qle; simpl; lia.
  - unfold Qle; simpl; lia.
  - exists s, t, w. exact (conj Hs (conj Ht (conj Hst (conj Hw Hpos)))).
Defined.

(** ** IntervalArranger: what the rows guarantee *)

Lemma placeInterval_length this rows interval :
  length (Arranger.placeInterval this rows interval).2 = length rows.
Proof.
  destruct (placeInterval_spec this rows interval) as [(r & maxX & -> & _)|[-> _]];
    simpl; [by rewrite length_insert|done].
Qed.

Lemma placeInterval_range this rows interval :
  -1 ≤ (Arranger.placeInterval this rows interval).1 < Z.of_nat (length rows).
Proof.
  destruct (placeInterval_spec this rows interval)
    as [(r & maxX & -> & Hr & _)|[-> _]]; simpl; [|lia].
  apply lookup_lt_Some in Hr. lia.
Qed.

Lemma arrangeLoop_range this (l : list OpenInterval) : ∀ rows,
  Forall (λ r, -1 ≤ r < Z.of_nat (length rows)) (Arranger.arrangeLoop this l rows []).
Proof.
  induction l as [|x l IH]; intros rows; [constructor|].
  rewrite arrangeLoop_cons. constructor; [apply placeInterval_range|].
  specialize (IH (Arranger.placeInterval this rows x).2).
  by rewrite placeInterval_length in IH.
Qed.

Lemma arrange_rows_nonneg_or_minus1 this intervals (r : Z) :
  r ∈ (Arranger.arrange this intervals).1 → r = -1 ∨ 0 ≤ r.
Proof.
  rewrite arrange_fst. destruct (Z.leb_spec (numRows this) 0) as [Hle|Hgt].
  - intros Hr. apply elem_of_replicate in Hr as [-> _]. by left.
  - intros Hr. pose proof (arrangeLoop_range this (Arranger._sortIntervals intervals)
                             (replicate (Z.to_nat (numRows this)) NInf)) as Hall.
    rewrite Forall_forall in Hall. specialize (Hall r Hr). simpl in Hall. lia.
Qed.

(** X17.  Every index [arrange] returns is -1 or a row number below
    [numRows]; there is one index per interval. *)
Theorem arrange_rows_in_range (this : IntervalArranger) (intervals : list OpenInterval) :
  length (Arranger.arrange this intervals).1 = length intervals ∧
  Forall (λ r, r = -1 ∨ 0 ≤ r < numRows this) (Arranger.arrange this intervals).1.
Proof.
  rewrite arrange_fst.
  destruct (Z.leb_spec (numRows this) 0) as [Hle|Hgt]; split.
  - by rewrite length_replicate.
  - apply Forall_forall. intros r Hr. apply elem_of_replicate in Hr as [-> _]. by left.
  - by rewrite length_arrangeLoop, (Permutation_length (sortIntervals_Permutation _)).
  - eapply Forall_impl; [apply arrangeLoop_range|].
    intros r Hr. simpl in Hr. rewrite length_replicate in Hr. lia.
Qed.

(** X18.  When no two of the intervals passed have both the same start
    and the same end (the comparison cannot tell such intervals apart, the
    sort leaves them in the order they came in, and the padding function
    may treat them differently), the returned rows depend only on which
    intervals are passed, not on their order: permuting the input changes
    neither the returned list nor, when there are rows to fill, the content
    the array is left with. *)
Theorem arrange_permutation_invariant (this : IntervalArranger)
    (intervals1 intervals2 : list OpenInterval) :
  NoDup intervals1 →
  intervals1 ≡ₚ intervals2 →
  (Arranger.arrange this intervals1).1 = (Arranger.arrange this intervals2).1 ∧
  (0 < numRows this →
     (Arranger.arrange this intervals1).2 = (Arranger.arrange this intervals2).2).
Proof.
  intros _ Hp.
  assert (Arranger._sortIntervals intervals1 = Arranger._sortIntervals intervals2) as Hs.
  { apply sortIntervals_unique; [|apply sortIntervals_Sorted].
    by rewrite sortIntervals_Permutation. }
  rewrite !arrange_fst, !arrange_snd, Hs, (Permutation_length Hp).
  split; [done|]. intros Hrows.
  by destruct (Z.leb_spec (numRows this) 0) as [?|_]; [lia|].
Qed.

Lemma arrange_permutation_invariant_witness :
  (Arranger.arrange singleRowArranger [intervalB; intervalA]).1 =
  (Arranger.arrange singleRowArranger [intervalA; intervalB]).1.
Proof.
  apply (arrange_permutation_invariant singleRowArranger
           [intervalB; intervalA] [intervalA; intervalB]).
  - apply NoDup_cons. split; [|apply NoDup_singleton].
    intros Hin%list_elem_of_singleton. discriminate Hin.
  - apply Permutation_swap.
Defined.

(** X19.  Calling [arrange] again on the array a first call has left
    returns the same rows and leaves the array as it is. *)
Theorem arrange_idempotent (this : IntervalArranger) (intervals : list OpenInterval) :
  Arranger.arrange this (Arranger.arrange this intervals).2 =
  Arranger.arrange this intervals.
Proof.
  unfold Arranger.arrange.
  destruct (Z.leb_spec (numRows this) 0) as [Hle|Hgt]; simpl; [done|].
  by rewrite (sortIntervals_sorted_id _ (sortIntervals_Sorted intervals)).
Qed.

Lemma BaseRows_place_spec rows interval :
  (∃ (n : nat) row,
     BaseRows.place rows interval = (Z.of_nat n, <[n := Some (end_ interval)]> rows) ∧
     rows !! n = Some row ∧ BaseRows.free (start interval) row = true ∧
     ∀ (j : nat) m, (j < n)%nat → rows !! j = Some m →
       BaseRows.free (start interval) m = false) ∨
  (BaseRows.place rows interval = (-1, rows) ∧
   ∀ (j : nat) m, rows !! j = Some m → BaseRows.free (start interval) m = false).
Proof.
  unfold BaseRows.place, findIndex.
  destruct (findIndexFrom_spec (BaseRows.free (start interval)) rows 0 ltac:(lia))
    as [[-> Hall]|(n & row & -> & Hn & Hfree & Hbefore)].
  - right. by simpl.
  - left. exists n, row.
    destruct (Z.eqb_spec (0 + Z.of_nat n) (-1)) as [?|_]; [lia|]. simpl.
    replace (Z.to_nat (0 + Z.of_nat n)) with n by lia.
    replace (0 + Z.of_nat n) with (Z.of_nat n) by lia. done.
Qed.

(** Whatever is placed later in a row starts after what the row holds. *)
Lemma BaseRows_later_starts (l : list OpenInterval) : ∀ rows (j n : nat) y e,
  Forall wfInterval l →
  l !! j = Some y → BaseRows.assign l rows !! j = Some (Z.of_nat n) →
  rows !! n = Some (Some e) → e < start y.
Proof.
  induction l as [|x l IH]; intros rows j n y e Hwf Hy Hr He; [done|].
  apply Forall_cons in Hwf as [Hx Hwf]. unfold wfInterval in Hx.
  cbn [BaseRows.assign] in Hr.
  destruct (BaseRows_place_spec rows x)
    as [(n0 & row & Hplace & Hn0 & Hfree & _)|[Hplace _]];
    rewrite Hplace in Hr; cbn [fst snd] in Hr.
  - destruct j as [|j]; simpl in Hy, Hr.
    + injection Hr as Hr. apply Nat2Z.inj in Hr. subst n0.
      injection Hy as ->.
      rewrite He in Hn0. injection Hn0 as <-. simpl in Hfree.
      by apply bool_decide_eq_true_1 in Hfree.
    + destruct (decide (n = n0)) as [->|Hne].
      * assert (end_ x < start y) as Hlt.
        { eapply (IH _ j n0 y (end_ x)); eauto.
          apply list_lookup_insert_eq. by eapply lookup_lt_Some. }
        rewrite He in Hn0. injection Hn0 as <-. simpl in Hfree.
        apply bool_decide_eq_true_1 in Hfree. lia.
      * eapply (IH _ j n y e); eauto. by rewrite list_lookup_insert_ne.
  - destruct j as [|j]; simpl in Hy, Hr.
    + simplify_eq. lia.
    + eapply (IH _ j n y e); eauto.
Qed.

Lemma BaseRows_same_row_disjoint (l : list OpenInterval) : ∀ rows (i j n : nat) x y,
  Forall wfInterval l → (i < j)%nat →
  l !! i = Some x → l !! j = Some y →
  BaseRows.assign l rows !! i = Some (Z.of_nat n) →
  BaseRows.assign l rows !! j = Some (Z.of_nat n) →
  end_ x < start y.
Proof.
  induction l as [|z l IH]; intros rows i j n x y Hwf Hij Hx Hy Hri Hrj; [done|].
  pose proof Hwf as Hwf0. apply Forall_cons in Hwf as [Hz Hwf].
  cbn [BaseRows.assign] in Hri, Hrj.
  destruct j as [|j]; [lia|]. simpl in Hy, Hrj.
  destruct i as [|i]; simpl in Hx, Hri.
  - injection Hx as ->.
    destruct (BaseRows_place_spec rows x)
      as [(n0 & row & Hplace & Hn0 & _)|[Hplace _]];
      rewrite Hplace in Hri, Hrj; cbn [fst snd] in Hri, Hrj;
      [|injection Hri as Hri; lia].
    injection Hri as Hri. apply Nat2Z.inj in Hri. subst n0.
    eapply (BaseRows_later_starts l _ j n y (end_ x)); eauto.
    apply list_lookup_insert_eq. by eapply lookup_lt_Some.
  - eapply (IH _ i j n x y); eauto. lia.
Qed.

Lemma emptyRows_insert_ge rows (n : nat) (e : Z) :
  (emptyRows rows ≤ S (emptyRows (<[n := Some e]> rows)))%nat.
Proof.
  unfold emptyRows. revert n. induction rows as [|row rows IH]; intros n; [simpl; lia|].
  destruct n as [|n]; simpl.
  - rewrite !filter_cons. rewrite (decide_False (P := Some e = None)) by done.
    case_decide; simpl; lia.
  - rewrite !filter_cons. specialize (IH n). case_decide; simpl; lia.
Qed.

Lemma emptyRows_pos_lookup rows :
  (0 < emptyRows rows)%nat → ∃ n : nat, rows !! n = Some None.
Proof.
  unfold emptyRows. induction rows as [|row rows IH]; simpl; [lia|].
  rewrite filter_cons. destruct row as [e|].
  - rewrite decide_False by done. intros H. destruct (IH H) as [n Hn]. by exists (S n).
  - intros _. by exists 0%nat.
Qed.

Lemma BaseRows_enough_rows (l : list OpenInterval) : ∀ rows,
  (length l ≤ emptyRows rows)%nat →
  Forall (λ r, 0 ≤ r) (BaseRows.assign l rows).
Proof.
  induction l as [|x l IH]; intros rows Hlen; [constructor|].
  cbn [BaseRows.assign]. simpl in Hlen.
  destruct (BaseRows_place_spec rows x)
    as [(n0 & row & Hplace & _)|[Hplace Hnone]]; rewrite Hplace; cbn [fst snd].
  - constructor; [lia|]. apply IH.
    pose proof (emptyRows_insert_ge rows n0 (end_ x)). lia.
  - exfalso. destruct (emptyRows_pos_lookup rows ltac:(lia)) as [n Hn].
    by specialize (Hnone n None Hn).
Qed.

(** X20.  Without padding and with a strictly increasing [baseToX], two
    intervals that receive the same row never overlap: the one processed
    later starts after the end of the earlier one. *)
Theorem arrange_same_row_disjoint (this : IntervalArranger) (X : Z → Q)
    (intervals : list OpenInterval) (i j : nat) (x y : OpenInterval) (r : Z) :
  (∀ interval, getPadding this interval = Fin 0) →
  (∀ b, baseToX (drawModel this) b = Fin (X b)) →
  (∀ a b, a < b → (X a < X b)%Q) →
  0 < numRows this →
  Forall wfInterval intervals →
  (i < j)%nat →
  (Arranger.arrange this intervals).2 !! i = Some x →
  (Arranger.arrange this intervals).2 !! j = Some y →
  (Arranger.arrange this intervals).1 !! i = Some r →
  (Arranger.arrange this intervals).1 !! j = Some r →
  r ≠ -1 →
  end_ x < start y.
Proof.
  intros Hpad HX Hmono Hrows Hwf Hij Hx Hy Hri Hrj Hr.
  rewrite (arrange_unpadded this X Hpad HX Hmono) in Hri, Hrj by done.
  rewrite arrange_snd in Hx, Hy.
  destruct (Z.leb_spec (numRows this) 0) as [?|_]; [lia|].
  assert (Forall wfInterval (Arranger._sortIntervals intervals)) as Hwf'.
  { by rewrite sortIntervals_Permutation. }
  assert (0 ≤ r) as Hpos.
  { destruct (arrange_rows_nonneg_or_minus1 this intervals r) as [?|?]; [|done|lia].
    rewrite (arrange_unpadded this X Hpad HX Hmono) by done.
    by eapply list_elem_of_lookup_2. }
  replace r with (Z.of_nat (Z.to_nat r)) in Hri, Hrj by lia.
  by eapply (BaseRows_same_row_disjoint _ _ i j).
Qed.

Lemma arrange_same_row_disjoint_witness :
  end_ intervalA < start intervalC.
Proof.
  apply (arrange_same_row_disjoint
           (mkIntervalArranger unitDrawingModel 2 (λ _, Fin 0)) inject_Z
           [intervalC; intervalB; intervalA] 0%nat 2%nat intervalA intervalC 0).
  - reflexivity.
  - reflexivity.
  - intros a b Hab. unfold Qlt. simpl. lia.
  - simpl. lia.
  - repeat constructor; unfold wfInterval; simpl; lia.
  - lia.
  - reflexivity.
  - reflexivity.
  - reflexivity.
  - reflexivity.
  - lia.
Defined.

(** X21.  Without padding and with a strictly increasing [baseToX], when
    there are at least as many rows as intervals every interval gets a row:
    no returned index is -1. *)
Theorem arrange_enough_rows (this : IntervalArranger) (X : Z → Q)
    (intervals : list OpenInterval) :
  (∀ interval, getPadding this interval = Fin 0) →
  (∀ b, baseToX (drawModel this) b = Fin (X b)) →
  (∀ a b, a < b → (X a < X b)%Q) →
  0 < numRows this →
  Z.of_nat (length intervals) ≤ numRows this →
  Forall (λ r, 0 ≤ r < numRows this) (Arranger.arrange this intervals).1.
Proof.
  intros Hpad HX Hmono Hrows Hlen.
  assert (Forall (λ r, 0 ≤ r) (Arranger.arrange this intervals).1) as Hpos.
  { rewrite (arrange_unpadded this X Hpad HX Hmono) by done.
    apply BaseRows_enough_rows.
    rewrite (Permutation_length (sortIntervals_Permutation _)).
    unfold emptyRows.
    assert (∀ n, filter (λ row : option Z, row = None) (replicate n None)
                 = replicate n None) as ->.
    { induction n as [|n IH]; [done|]. simpl. rewrite filter_cons.
      rewrite decide_True by done. by rewrite IH. }
    rewrite length_replicate. lia. }
  rewrite Forall_forall in Hpos. apply Forall_forall. intros r Hr.
  specialize (Hpos r Hr).
  rewrite arrange_fst in Hr.
  destruct (Z.leb_spec (numRows this) 0) as [?|_]; [lia|].
  pose proof (arrangeLoop_range this (Arranger._sortIntervals intervals)
                (replicate (Z.to_nat (numRows this)) NInf)) as Hall.
  rewrite Forall_forall in Hall. specialize (Hall r Hr). simpl in Hall.
  rewrite length_replicate in Hall. lia.
Qed.

Lemma arrange_enough_rows_witness :
  Forall (λ r, 0 ≤ r < 2)
    (Arranger.arrange (mkIntervalArranger unitDrawingModel 2 (λ _, Fin 0))
       [intervalB; intervalA]).1.
Proof.
  apply (arrange_enough_rows (mkIntervalArranger unitDrawingModel 2 (λ _, Fin 0)) inject_Z
           [intervalB; intervalA]).
  - reflexivity.
  - reflexivity.
  - intros a b Hab. unfold Qlt. simpl. lia.
  - simpl. lia.
  - simpl. lia.
Defined.
